(** * History chains of the token-pass decoder (TPLexPrefixTree.hh)

    The decoder keeps three kinds of history records, [LMHistory],
    [WordHistory] and [StateHistory].  Each record points to the record
    before it ([previous]) and counts who refers to it
    ([reference_count]).  Their constructors are the code that
    TPLexPrefixTree.hh defines in full; the prefix tree itself and the
    n-gram model of TreeGram.hh are declared there and defined elsewhere.

    The records live on the C++ heap; here the heap is an arena: a finite
    map from addresses to records.  A pointer is an optional address
    ([None] is the null pointer), and [new] places a record at an address
    that holds none.  The [int] fields are integers; a count would leave
    the range of [int] only with 2^31 references to one record. *)

From Stdlib Require Import ZArith String.
From Stdlib Require Import Floats.SpecFloat.
From stdpp Require Import gmap gmultiset.

Local Open Scope string_scope.
Local Open Scope Z_scope.

(** A pointer to a record of the arena. *)
Abbreviation addr := nat (only parsing).

(** A C++ [float].  The constructors only store and copy floats, no
    arithmetic is done on them; [0] converted to [float] is [+0.0]. *)
Abbreviation float := spec_float (only parsing).

Definition float_zero : float := S754_zero false.

(** ** The namespace [hist] (history.hh)

    [hist::link] and [hist::unlink] are templates over any structure that
    has the fields [previous] and [reference_count]; the class [record]
    is that requirement. *)

Module hist.

Class record (T : Type) := {
  previous : T -> option addr;
  reference_count : T -> Z;
  set_reference_count : Z -> T -> T;
  previous_set_reference_count :
    forall z r, previous (set_reference_count z r) = previous r;
  reference_count_set_reference_count :
    forall z r, reference_count (set_reference_count z r) = z
}.

Section link_unlink.
Context {T : Type} `{record T}.

(** Modelled from the spec: [hist::link] of history.hh, which is not among
    the sources ("helper operations link/unlink performing the
    increment/recursive-decrement"; "incrementing its reference count").
    A pointer to no live record has no defined behaviour: [None]. *)
Definition link (t : addr) (h : gmap addr T) : option (gmap addr T) :=
  r ← h !! t;
  Some (<[t := set_reference_count (reference_count r + 1) r]> h).

(** Modelled from the spec: [hist::unlink] of history.hh, which is not
    among the sources ("decrementing a record's reference count to zero
    must recursively release its previous link"; "a record is reclaimed
    only when its reference count reaches zero, which transitively
    triggers reclamation of its ancestor if it is the last holder").
    Every recursive call follows the reclamation of one record, so the
    number of live records bounds the depth. *)
Fixpoint unlink_from (depth : nat) (t : addr) (h : gmap addr T)
  : option (gmap addr T) :=
  match depth with
  | O => None
  | S depth =>
      r ← h !! t;
      let count := reference_count r - 1 in
      if decide (count = 0) then
        match previous r with
        | Some p => unlink_from depth p (delete t h)
        | None => Some (delete t h)
        end
      else Some (<[t := set_reference_count count r]> h)
  end.

(** [hist::unlink(t)]: see [unlink_from_depth] for the depth. *)
Definition unlink (t : addr) (h : gmap addr T) : option (gmap addr T) :=
  unlink_from (size h) t h.

End link_unlink.
End hist.

(** ** The three records and their constructors

    A field that the constructor leaves without a value is [None] until
    something is stored in it.  [fields] lists what a record carries,
    field by field, in the order of the declaration. *)

Inductive value :=
  | Int (z : Z)
  | Bool (b : bool)
  | Float (f : float)
  | Pointer (p : option addr)
  | Indeterminate.

Definition value_of {A : Type} (inj : A -> value) (field : option A) : value :=
  match field with
  | Some a => inj a
  | None => Indeterminate
  end.

Module LMHistory.

Record t := mk {
  word_id : Z;
  lm_id : Z;
  previous : option addr;
  reference_count : Z;
  printed : bool;
  word_start_frame : Z
}.

#[global] Instance record : hist.record t := {|
  hist.previous := previous;
  hist.reference_count := reference_count;
  hist.set_reference_count z r :=
    mk (word_id r) (lm_id r) (previous r) z (printed r) (word_start_frame r);
  hist.previous_set_reference_count _ _ := eq_refl;
  hist.reference_count_set_reference_count _ _ := eq_refl
|}.

Definition fields (r : t) : list (string * value) :=
  [("word_id", Int (word_id r)); ("lm_id", Int (lm_id r));
   ("previous", Pointer (previous r));
   ("reference_count", Int (reference_count r));
   ("printed", Bool (printed r));
   ("word_start_frame", Int (word_start_frame r))].

(** [LMHistory::LMHistory(int word_id, int lm_id, LMHistory *previous)];
    the new record is placed at an address that holds no record. *)
Definition LMHistory (word_id lm_id : Z) (previous : option addr)
    (h : gmap addr t) : option (addr * gmap addr t) :=
  let this := fresh (dom h) in
  let h := <[this := mk word_id lm_id previous 0 false 0]> h in
  match previous with
  | Some p => h ← hist.link p h; Some (this, h)
  | None => Some (this, h)
  end.

End LMHistory.

Module WordHistory.

Record t := mk {
  word_id : Z;
  end_frame : Z;
  lex_node_id : option Z;
  lm_log_prob : float;
  am_log_prob : float;
  cum_lm_log_prob : float;
  cum_am_log_prob : float;
  printed : bool;
  previous : option addr;
  reference_count : Z
}.

#[global] Instance record : hist.record t := {|
  hist.previous := previous;
  hist.reference_count := reference_count;
  hist.set_reference_count z r :=
    mk (word_id r) (end_frame r) (lex_node_id r) (lm_log_prob r)
       (am_log_prob r) (cum_lm_log_prob r) (cum_am_log_prob r) (printed r)
       (previous r) z;
  hist.previous_set_reference_count _ _ := eq_refl;
  hist.reference_count_set_reference_count _ _ := eq_refl
|}.

Definition fields (r : t) : list (string * value) :=
  [("word_id", Int (word_id r)); ("end_frame", Int (end_frame r));
   ("lex_node_id", value_of Int (lex_node_id r));
   ("lm_log_prob", Float (lm_log_prob r));
   ("am_log_prob", Float (am_log_prob r));
   ("cum_lm_log_prob", Float (cum_lm_log_prob r));
   ("cum_am_log_prob", Float (cum_am_log_prob r));
   ("printed", Bool (printed r));
   ("previous", Pointer (previous r));
   ("reference_count", Int (reference_count r))].

(** The two assignments of the constructor's body. *)
Definition set_cum_log_probs (cum_am cum_lm : float) (r : t) : t :=
  mk (word_id r) (end_frame r) (lex_node_id r) (lm_log_prob r)
     (am_log_prob r) cum_lm cum_am (printed r) (previous r)
     (reference_count r).

(** [WordHistory::WordHistory(int word_id, int end_frame,
    WordHistory *previous)]. *)
Definition WordHistory (word_id end_frame : Z) (previous : option addr)
    (h : gmap addr t) : option (addr * gmap addr t) :=
  let this := fresh (dom h) in
  let h := <[this := mk word_id end_frame None float_zero float_zero
                        float_zero float_zero false previous 0]> h in
  match previous with
  | Some p =>
      h ← hist.link p h;
      prev ← h !! p;
      self ← h !! this;
      Some (this,
            <[this := set_cum_log_probs (cum_am_log_prob prev)
                                        (cum_lm_log_prob prev) self]> h)
  | None => Some (this, h)
  end.

End WordHistory.

Module StateHistory.

Record t := mk {
  hmm_model : Z;
  start_time : Z;
  log_prob : option float;
  previous : option addr;
  reference_count : Z
}.

#[global] Instance record : hist.record t := {|
  hist.previous := previous;
  hist.reference_count := reference_count;
  hist.set_reference_count z r :=
    mk (hmm_model r) (start_time r) (log_prob r) (previous r) z;
  hist.previous_set_reference_count _ _ := eq_refl;
  hist.reference_count_set_reference_count _ _ := eq_refl
|}.

Definition fields (r : t) : list (string * value) :=
  [("hmm_model", Int (hmm_model r)); ("start_time", Int (start_time r));
   ("log_prob", value_of Float (log_prob r));
   ("previous", Pointer (previous r));
   ("reference_count", Int (reference_count r))].

(** [StateHistory::StateHistory(int hmm_model, int start_time,
    StateHistory *previous)]. *)
Definition StateHistory (hmm_model start_time : Z) (previous : option addr)
    (h : gmap addr t) : option (addr * gmap addr t) :=
  let this := fresh (dom h) in
  let h := <[this := mk hmm_model start_time None previous 0]> h in
  match previous with
  | Some p => h ← hist.link p h; Some (this, h)
  | None => Some (this, h)
  end.

End StateHistory.

(** ** Histories in general

    What the three constructors have in common, seen through the fields
    [previous] and [reference_count]: [create] places a record with no
    reference to it at an address that held none, and takes one reference
    to [previous]. *)

(** A pointer that a constructor may be given: null, or the address of a
    live record. *)
Definition valid {T : Type} (p : option addr) (h : gmap addr T) : Prop :=
  match p with
  | Some a => is_Some (h !! a)
  | None => True
  end.

#[global] Instance valid_dec {T : Type} (p : option addr) (h : gmap addr T) :
  Decision (valid p h).
Proof. destruct p; simpl; apply _. Defined.

(** The heap [h'] is [h] after a constructor has built a record at
    [this] on top of [previous]. *)
Definition created {T : Type} `{hist.record T} (previous : option addr)
    (h : gmap addr T) (this : addr) (h' : gmap addr T) : Prop :=
  h !! this = None /\
  (forall a, hist.previous <$> h' !! a =
             if decide (a = this) then Some previous
             else hist.previous <$> h !! a) /\
  (forall a, hist.reference_count <$> h' !! a =
             if decide (a = this) then Some 0
             else if decide (previous = Some a)
                  then Z.succ <$> (hist.reference_count <$> h !! a)
                  else hist.reference_count <$> h !! a).

Class History (T : Type) `{hist.record T} := {
  create : Z -> Z -> option addr -> gmap addr T -> option (addr * gmap addr T);
  create_spec : forall x y previous h,
    valid previous h ->
    exists this h', create x y previous h = Some (this, h') /\
                    created previous h this h'
}.

(** ** Holders and chains

    A holder of a record is whoever took a reference to it with
    [hist::link] and has not yet given it back with [hist::unlink]: a
    token of the search, for instance.  A record is also referred to by
    every live record whose [previous] it is.  The state of a run is the
    heap together with the references that holders have taken. *)

Record state (T : Type) := State {
  heap : gmap addr T;
  holders : gmultiset addr
}.
Arguments State {T} _ _.
Arguments heap {T} _.
Arguments holders {T} _.

Inductive op :=
  | New (x y : Z) (previous : option addr)
  | Link (t : addr)
  | Unlink (t : addr).

Section chains.
Context {T : Type} `{History T}.

Definition initial : state T := State ∅ ∅.

(** One operation of a client.  A constructor is given null or a pointer
    to a live record.  [hist::unlink] is called on any live record,
    whether or not the caller holds a reference to it. *)
Definition step (o : op) (s : state T) : option (state T) :=
  match o with
  | New x y previous =>
      if decide (valid previous (heap s)) then
        '(_, h) ← create x y previous (heap s);
        Some (State h (holders s))
      else None
  | Link t =>
      h ← hist.link t (heap s);
      Some (State h (holders s ⊎ {[+ t +]}))
  | Unlink t =>
      h ← hist.unlink t (heap s);
      Some (State h (holders s ∖ {[+ t +]}))
  end.

Fixpoint run (ops : list op) (s : state T) : option (state T) :=
  match ops with
  | [] => Some s
  | o :: ops => s ← step o s; run ops s
  end.

(** The operation gives back no reference that was not taken: an unlink
    of [t] comes from a holder of [t]. *)
Definition held (o : op) (s : state T) : bool :=
  match o with
  | Unlink t => bool_decide (t ∈ holders s)
  | _ => true
  end.

(** Every unlink of the run gives back a reference that a holder took
    before. *)
Fixpoint balanced (ops : list op) (s : state T) : bool :=
  match ops with
  | [] => true
  | o :: ops =>
      held o s
      && match step o s with
         | Some s => balanced ops s
         | None => true
         end
  end.

(** The references that the records of a heap hold: one to the
    [previous] of every live record. *)
Definition pointee (p : option addr) : gmultiset addr :=
  match p with
  | Some a => {[+ a +]}
  | None => ∅
  end.

Definition referents (h : gmap addr T) : gmultiset addr :=
  map_fold (fun _ p X => pointee p ⊎ X) ∅ (hist.previous <$> h).

(** The number of references to [a], from holders and from records. *)
Definition references (a : addr) (s : state T) : nat :=
  multiplicity a (holders s ⊎ referents (heap s)).

(** Every count is the number of references, and nothing refers to an
    address that holds no record. *)
Definition accounted (s : state T) : Prop :=
  forall a,
    match heap s !! a with
    | Some r => hist.reference_count r = Z.of_nat (references a s)
    | None => references a s = 0%nat
    end.

End chains.

(** ** Facts about [hist::link] and the constructors *)

Section link_facts.
Context {T : Type} `{hist.record T}.

Lemma link_Some (t : addr) (h : gmap addr T) (r : T) :
  h !! t = Some r ->
  hist.link t h =
  Some (<[t := hist.set_reference_count (hist.reference_count r + 1) r]> h).
Proof. intros Hr. unfold hist.link. rewrite Hr. reflexivity. Qed.

Lemma fresh_not_live (h : gmap addr T) : h !! fresh (dom h) = None.
Proof. apply not_elem_of_dom, is_fresh. Qed.

Lemma valid_not_fresh (p : addr) (h : gmap addr T) :
  valid (Some p) h -> p <> fresh (dom h).
Proof.
  intros [r Hr] ->. rewrite fresh_not_live in Hr. discriminate.
Qed.

(** The heap a constructor leaves when [previous] is null. *)
Lemma created_null (h : gmap addr T) (new : T) :
  hist.previous new = None ->
  hist.reference_count new = 0 ->
  created None h (fresh (dom h)) (<[fresh (dom h) := new]> h).
Proof.
  intros Hp Hc. split; [apply fresh_not_live|].
  split; intros a; destruct (decide (a = fresh (dom h))) as [->|Ha];
    rewrite ?lookup_insert_eq, ?lookup_insert_ne by done; simpl;
    congruence.
Qed.

(** The heap a constructor leaves when [previous] points to [r]. *)
Lemma created_linked (p : addr) (h : gmap addr T) (r new : T) :
  h !! p = Some r ->
  hist.previous new = Some p ->
  hist.reference_count new = 0 ->
  created (Some p) h (fresh (dom h))
    (<[p := hist.set_reference_count (hist.reference_count r + 1) r]>
       (<[fresh (dom h) := new]> h)).
Proof.
  intros Hr Hp Hc.
  assert (p <> fresh (dom h)) as Hne by (apply valid_not_fresh; eexists; done).
  split; [apply fresh_not_live|].
  split; intros a; destruct (decide (a = fresh (dom h))) as [->|Ha].
  - rewrite lookup_insert_ne, lookup_insert_eq by done. simpl. congruence.
  - destruct (decide (a = p)) as [->|Hap].
    + rewrite lookup_insert_eq, Hr. simpl.
      by rewrite hist.previous_set_reference_count.
    + by rewrite !lookup_insert_ne.
  - rewrite lookup_insert_ne, lookup_insert_eq by done. simpl. congruence.
  - destruct (decide (a = p)) as [->|Hap].
    + rewrite lookup_insert_eq, Hr, decide_True by done. simpl.
      by rewrite hist.reference_count_set_reference_count.
    + rewrite !lookup_insert_ne, decide_False by congruence. done.
Qed.

End link_facts.

Lemma LMHistory_null (word_id lm_id : Z) (h : gmap addr LMHistory.t) :
  LMHistory.LMHistory word_id lm_id None h =
  Some (fresh (dom h),
        <[fresh (dom h) := LMHistory.mk word_id lm_id None 0 false 0]> h).
Proof. reflexivity. Qed.

Lemma LMHistory_linked (word_id lm_id : Z) (p : addr)
    (h : gmap addr LMHistory.t) (r : LMHistory.t) :
  h !! p = Some r ->
  LMHistory.LMHistory word_id lm_id (Some p) h =
  Some (fresh (dom h),
        <[p := hist.set_reference_count (hist.reference_count r + 1) r]>
          (<[fresh (dom h) := LMHistory.mk word_id lm_id (Some p) 0 false 0]> h)).
Proof.
  intros Hr. unfold LMHistory.LMHistory.
  assert (p <> fresh (dom h)) as Hp by (apply valid_not_fresh; eexists; done).
  erewrite link_Some by (rewrite lookup_insert_ne by done; exact Hr).
  reflexivity.
Qed.

Lemma LMHistory_created (word_id lm_id : Z) (previous : option addr)
    (h : gmap addr LMHistory.t) :
  valid previous h ->
  exists this h',
    LMHistory.LMHistory word_id lm_id previous h = Some (this, h') /\
    created previous h this h'.
Proof.
  intros Hv. destruct previous as [p|]; simpl in Hv.
  - destruct Hv as [r Hr]. eexists _, _.
    split; [apply LMHistory_linked, Hr|]. by apply created_linked.
  - eexists _, _. split; [apply LMHistory_null|]. by apply created_null.
Qed.

Lemma WordHistory_null (word_id end_frame : Z) (h : gmap addr WordHistory.t) :
  WordHistory.WordHistory word_id end_frame None h =
  Some (fresh (dom h),
        <[fresh (dom h) :=
            WordHistory.mk word_id end_frame None float_zero float_zero
              float_zero float_zero false None 0]> h).
Proof. reflexivity. Qed.

Lemma WordHistory_linked (word_id end_frame : Z) (p : addr)
    (h : gmap addr WordHistory.t) (r : WordHistory.t) :
  h !! p = Some r ->
  WordHistory.WordHistory word_id end_frame (Some p) h =
  Some (fresh (dom h),
        <[p := hist.set_reference_count (hist.reference_count r + 1) r]>
          (<[fresh (dom h) :=
               WordHistory.mk word_id end_frame None float_zero float_zero
                 (WordHistory.cum_lm_log_prob r)
                 (WordHistory.cum_am_log_prob r) false (Some p) 0]> h)).
Proof.
  intros Hr. unfold WordHistory.WordHistory.
  assert (p <> fresh (dom h)) as Hp by (apply valid_not_fresh; eexists; done).
  erewrite link_Some by (rewrite lookup_insert_ne by done; exact Hr).
  simpl. rewrite lookup_insert_eq. simpl.
  rewrite lookup_insert_ne, lookup_insert_eq by done. simpl.
  rewrite insert_insert_ne by done. rewrite insert_insert_eq.
  reflexivity.
Qed.

Lemma WordHistory_created (word_id end_frame : Z) (previous : option addr)
    (h : gmap addr WordHistory.t) :
  valid previous h ->
  exists this h',
    WordHistory.WordHistory word_id end_frame previous h = Some (this, h') /\
    created previous h this h'.
Proof.
  intros Hv. destruct previous as [p|]; simpl in Hv.
  - destruct Hv as [r Hr]. eexists _, _.
    split; [apply WordHistory_linked, Hr|]. by apply created_linked.
  - eexists _, _. split; [apply WordHistory_null|]. by apply created_null.
Qed.

Lemma StateHistory_null (hmm_model start_time : Z)
    (h : gmap addr StateHistory.t) :
  StateHistory.StateHistory hmm_model start_time None h =
  Some (fresh (dom h),
        <[fresh (dom h) := StateHistory.mk hmm_model start_time None None 0]> h).
Proof. reflexivity. Qed.

Lemma StateHistory_linked (hmm_model start_time : Z) (p : addr)
    (h : gmap addr StateHistory.t) (r : StateHistory.t) :
  h !! p = Some r ->
  StateHistory.StateHistory hmm_model start_time (Some p) h =
  Some (fresh (dom h),
        <[p := hist.set_reference_count (hist.reference_count r + 1) r]>
          (<[fresh (dom h) :=
               StateHistory.mk hmm_model start_time None (Some p) 0]> h)).
Proof.
  intros Hr. unfold StateHistory.StateHistory.
  assert (p <> fresh (dom h)) as Hp by (apply valid_not_fresh; eexists; done).
  erewrite link_Some by (rewrite lookup_insert_ne by done; exact Hr).
  reflexivity.
Qed.

Lemma StateHistory_created (hmm_model start_time : Z)
    (previous : option addr) (h : gmap addr StateHistory.t) :
  valid previous h ->
  exists this h',
    StateHistory.StateHistory hmm_model start_time previous h =
      Some (this, h') /\
    created previous h this h'.
Proof.
  intros Hv. destruct previous as [p|]; simpl in Hv.
  - destruct Hv as [r Hr]. eexists _, _.
    split; [apply StateHistory_linked, Hr|]. by apply created_linked.
  - eexists _, _. split; [apply StateHistory_null|]. by apply created_null.
Qed.

#[global] Instance LMHistory_History : History LMHistory.t := {|
  create := LMHistory.LMHistory;
  create_spec := LMHistory_created
|}.

#[global] Instance WordHistory_History : History WordHistory.t := {|
  create := WordHistory.WordHistory;
  create_spec := WordHistory_created
|}.

#[global] Instance StateHistory_History : History StateHistory.t := {|
  create := StateHistory.StateHistory;
  create_spec := StateHistory_created
|}.

(** ** The counts are the references *)

Section accounting.
Context {T : Type} `{History T}.
Implicit Types (h : gmap addr T) (X : gmultiset addr) (s : state T).

Lemma referents_ext h1 h2 :
  (forall a, hist.previous <$> h1 !! a = hist.previous <$> h2 !! a) ->
  referents h1 = referents h2.
Proof.
  intros Heq. unfold referents. f_equal. apply map_eq. intros a.
  rewrite !lookup_fmap. apply Heq.
Qed.

Lemma referents_empty : referents (∅ : gmap addr T) = ∅.
Proof. unfold referents. rewrite fmap_empty. apply map_fold_empty. Qed.

Lemma referents_insert h a r :
  h !! a = None ->
  referents (<[a := r]> h) = pointee (hist.previous r) ⊎ referents h.
Proof.
  intros Ha. unfold referents. rewrite fmap_insert.
  rewrite map_fold_insert_L; [done| |by rewrite lookup_fmap, Ha].
  intros. multiset_solver.
Qed.

Lemma referents_delete h a r :
  h !! a = Some r ->
  referents h = pointee (hist.previous r) ⊎ referents (delete a h).
Proof.
  intros Ha. unfold referents. rewrite fmap_delete.
  apply (map_fold_delete_L (fun _ p X => pointee p ⊎ X)).
  - intros. multiset_solver.
  - by rewrite lookup_fmap, Ha.
Qed.

Lemma referents_update h a r r' :
  h !! a = Some r ->
  hist.previous r' = hist.previous r ->
  referents (<[a := r']> h) = referents h.
Proof.
  intros Ha Hp. apply referents_ext. intros b.
  destruct (decide (b = a)) as [->|Hb].
  - rewrite lookup_insert_eq, Ha. simpl. by rewrite Hp.
  - by rewrite lookup_insert_ne.
Qed.

Lemma accounted_initial : accounted (initial (T := T)).
Proof.
  intros a. unfold references. simpl. rewrite lookup_empty, referents_empty.
  multiset_solver.
Qed.


Lemma multiplicity_pointee (a : addr) (p : option addr) :
  multiplicity a (pointee p) = if decide (p = Some a) then 1%nat else 0%nat.
Proof.
  destruct p as [b|]; simpl.
  - rewrite multiplicity_singleton.
    destruct (decide (a = b)), (decide (Some b = Some a)); congruence.
  - rewrite multiplicity_empty. by destruct (decide (None = Some a)).
Qed.

Lemma accounted_link s t h' :
  hist.link t (heap s) = Some h' ->
  accounted s ->
  accounted (State h' (holders s ⊎ {[+ t +]})).
Proof.
  unfold hist.link. destruct (heap s !! t) as [r|] eqn:Hr; [|done].
  simpl. intros [= <-] Hacc a. specialize (Hacc a).
  unfold references in *. simpl.
  rewrite (referents_update _ _ r) by
    (done || apply hist.previous_set_reference_count).
  rewrite !multiplicity_disj_union, multiplicity_singleton in *.
  destruct (decide (a = t)) as [->|Ha].
  - rewrite lookup_insert_eq, Hr in *.
    rewrite hist.reference_count_set_reference_count. lia.
  - rewrite lookup_insert_ne by done. destruct (heap s !! a); lia.
Qed.

Lemma accounted_create s previous this h' :
  valid previous (heap s) ->
  created previous (heap s) this h' ->
  accounted s ->
  accounted (State h' (holders s)).
Proof.
  intros Hv (Hfresh & Hprev & Hcount) Hacc.
  assert (previous <> Some this) as Hne.
  { intros ->. destruct Hv as [r Hr]. congruence. }
  assert (referents h' = pointee previous ⊎ referents (heap s)) as Href.
  { pose proof (Hprev this) as Hthis. rewrite decide_True in Hthis by done.
    destruct (h' !! this) as [new|] eqn:Hnew; [|done].
    injection Hthis as Hthis. rewrite <- Hthis.
    rewrite <- (referents_insert _ this new) by done.
    apply referents_ext. intros a. rewrite Hprev.
    destruct (decide (a = this)) as [->|Ha].
    - rewrite lookup_insert_eq. simpl. congruence.
    - by rewrite lookup_insert_ne. }
  intros a. specialize (Hacc a). specialize (Hcount a).
  unfold references in *. simpl. rewrite Href.
  rewrite !multiplicity_disj_union, multiplicity_pointee in *.
  destruct (decide (a = this)) as [->|Ha].
  - rewrite Hfresh in Hacc. rewrite decide_False by done.
    destruct (h' !! this) as [new|]; [|done].
    injection Hcount as ->. lia.
  - destruct (decide (previous = Some a)) as [->|Hp].
    + destruct Hv as [r Hr]. rewrite Hr in *.
      destruct (h' !! a) as [r'|]; [|done].
      injection Hcount as ->. lia.
    + destruct (heap s !! a) as [r|], (h' !! a) as [r'|]; try done.
      injection Hcount as ->. lia.
Qed.


(** The depth that [hist::unlink] starts with is never what stops it:
    any depth from the number of live records on gives the same result. *)
Lemma unlink_from_depth (d1 d2 : nat) (t : addr) h :
  (size h <= d1)%nat -> (size h <= d2)%nat ->
  hist.unlink_from d1 t h = hist.unlink_from d2 t h.
Proof.
  revert d2 t h. induction d1 as [|d1 IH]; intros [|d2] t h H1 H2; simpl;
    try done;
    try (apply Nat.le_0_r, map_size_empty_inv in H1 as ->;
         by rewrite lookup_empty);
    try (apply Nat.le_0_r, map_size_empty_inv in H2 as ->;
         by rewrite lookup_empty).
  destruct (h !! t) as [r|] eqn:Hr; [|done]. simpl.
  destruct (decide (hist.reference_count r - 1 = 0)); [|done].
  destruct (hist.previous r); [|done].
  apply IH; rewrite map_size_delete_Some by done; lia.
Qed.

Lemma accounted_unlink_from (depth : nat) h X t :
  (size h <= depth)%nat ->
  accounted (State h X) ->
  t ∈ X ->
  exists h', hist.unlink_from depth t h = Some h' /\
             accounted (State h' (X ∖ {[+ t +]})).
Proof.
  revert h X t. induction depth as [|depth IH]; intros h X t Hsize Hacc Ht;
    rewrite elem_of_multiplicity in Ht;
    pose proof (Hacc t) as Hcount; unfold references in Hcount;
    simpl in Hcount; rewrite multiplicity_disj_union in Hcount;
    (destruct (h !! t) as [r|] eqn:Hr; [|lia]).
  { apply Nat.le_0_r, map_size_empty_inv in Hsize. subst.
    by rewrite lookup_empty in Hr. }
  simpl. rewrite Hr. simpl.
  destruct (decide (hist.reference_count r - 1 = 0)) as [Hlast|Hmore].
  - pose proof (referents_delete h t r Hr) as Hdel.
    assert (accounted (State (delete t h)
                         (X ∖ {[+ t +]} ⊎ pointee (hist.previous r)))) as Hacc'.
    { intros a. specialize (Hacc a). unfold references in *. simpl in *.
      rewrite Hdel in Hacc, Hcount.
      rewrite !multiplicity_disj_union, ?multiplicity_difference,
        ?multiplicity_singleton in *.
      destruct (decide (a = t)) as [->|Ha].
      - rewrite lookup_delete_eq. lia.
      - rewrite lookup_delete_ne by done. destruct (h !! a); lia. }
    destruct (hist.previous r) as [p|] eqn:Hp; simpl in Hacc'.
    + destruct (IH (delete t h) (X ∖ {[+ t +]} ⊎ {[+ p +]}) p)
        as (h' & Hh' & Hacc''); [|done|multiset_solver|].
      { rewrite map_size_delete_Some by done. lia. }
      exists h'. split; [done|].
      by replace (X ∖ {[+ t +]}) with ((X ∖ {[+ t +]} ⊎ {[+ p +]}) ∖ {[+ p +]})
        by multiset_solver.
    + exists (delete t h). split; [done|].
      by replace (X ∖ {[+ t +]}) with (X ∖ {[+ t +]} ⊎ ∅) by multiset_solver.
  - eexists. split; [done|]. intros a. specialize (Hacc a).
    unfold references in *. simpl in *.
    rewrite (referents_update _ _ r) by
      (done || apply hist.previous_set_reference_count).
    rewrite !multiplicity_disj_union, ?multiplicity_difference,
      ?multiplicity_singleton in *.
    destruct (decide (a = t)) as [->|Ha].
    + rewrite lookup_insert_eq. rewrite Hr in Hacc.
      rewrite hist.reference_count_set_reference_count. lia.
    + rewrite lookup_insert_ne by done. destruct (h !! a); lia.
Qed.


Lemma accounted_unlink h X t :
  accounted (State h X) ->
  t ∈ X ->
  exists h', hist.unlink t h = Some h' /\
             accounted (State h' (X ∖ {[+ t +]})).
Proof. intros. by apply accounted_unlink_from. Qed.

Lemma accounted_step o s s' :
  step o s = Some s' -> held o s = true -> accounted s -> accounted s'.
Proof.
  destruct s as [h X]. destruct o as [x y previous|t|t]; simpl.
  - destruct (decide (valid previous h)) as [Hv|]; [|done].
    destruct (create_spec x y previous h Hv) as (this & h' & -> & Hcreated).
    simpl. intros [= <-] _.
    by apply (accounted_create (State h X) previous this).
  - destruct (hist.link t h) as [h'|] eqn:Hlink; [|done].
    simpl. intros [= <-] _. by apply (accounted_link (State h X)).
  - intros Hs Ht Hacc. apply bool_decide_eq_true in Ht.
    destruct (accounted_unlink h X t Hacc Ht) as (h' & Hh' & Hacc').
    rewrite Hh' in Hs. simpl in Hs. by injection Hs as <-.
Qed.

Lemma accounted_run ops s s' :
  run ops s = Some s' -> balanced ops s = true ->
  accounted s -> accounted s'.
Proof.
  revert s. induction ops as [|o ops IH]; simpl; intros s.
  - by intros [= <-].
  - destruct (step o s) as [s1|] eqn:Hstep; [|done]. simpl.
    intros Hrun [Hheld Hbal]%andb_true_iff Hacc.
    eauto using accounted_step.
Qed.

(** [hist::unlink] never brings a reclaimed record back. *)
Lemma unlink_from_reclaimed (depth : nat) (a t : addr) h h' :
  h !! t = None -> hist.unlink_from depth a h = Some h' -> h' !! t = None.
Proof.
  revert a h. induction depth as [|depth IH]; intros a h Ht; [done|].
  simpl. destruct (h !! a) as [r|] eqn:Hr; [|done]. simpl.
  assert (delete a h !! t = None) as Hdel.
  { destruct (decide (t = a)) as [->|Hne].
    - apply lookup_delete_eq.
    - by rewrite lookup_delete_ne. }
  destruct (decide (hist.reference_count r - 1 = 0)).
  - destruct (hist.previous r); [by apply IH|]. by intros [= <-].
  - intros [= <-]. rewrite lookup_insert_ne; [done|]. congruence.
Qed.

(** The last reference: the record is reclaimed. *)
Lemma unlink_last (t : addr) h h' r :
  h !! t = Some r ->
  hist.reference_count r = 1 ->
  hist.unlink t h = Some h' ->
  h' !! t = None.
Proof.
  intros Hr Hc. unfold hist.unlink. destruct (size h); [done|].
  simpl. rewrite Hr. simpl. rewrite decide_True by lia.
  destruct (hist.previous r).
  - apply unlink_from_reclaimed, lookup_delete_eq.
  - intros [= <-]. apply lookup_delete_eq.
Qed.

(** Not the last reference: the count goes down by one. *)
Lemma unlink_more (t : addr) h r :
  h !! t = Some r ->
  hist.reference_count r <> 1 ->
  hist.unlink t h =
  Some (<[t := hist.set_reference_count (hist.reference_count r - 1) r]> h).
Proof.
  intros Hr Hc. unfold hist.unlink. destruct (size h) eqn:Hsize.
  - apply map_size_empty_inv in Hsize. subst. by rewrite lookup_empty in Hr.
  - simpl. rewrite Hr. simpl. by rewrite decide_False by lia.
Qed.

Lemma release_tail (k : nat) s t r :
  accounted s ->
  heap s !! t = Some r ->
  hist.reference_count r = Z.of_nat (multiplicity t (holders s)) ->
  (0 < multiplicity t (holders s))%nat ->
  (k <= multiplicity t (holders s))%nat ->
  exists s', run (replicate k (Unlink t)) s = Some s' /\
             (heap s' !! t = None <-> k = multiplicity t (holders s)).
Proof.
  revert s r. induction k as [|k IH]; intros [h X] r; simpl;
    intros Hacc Hr Hc Hpos Hk.
  { eexists. split; [done|]. simpl. rewrite Hr. split; [done|lia]. }
  destruct (accounted_unlink h X t) as (h' & Hh' & Hacc');
    [done|by apply elem_of_multiplicity|].
  rewrite Hh'. simpl.
  destruct (decide (multiplicity t X = 1%nat)) as [Hone|Hmore].
  - assert (k = 0%nat) as -> by lia. simpl. eexists. split; [done|]. simpl.
    rewrite (unlink_last t h h' r) by (done || lia). split; [lia|done].
  - rewrite (unlink_more t h r) in Hh' by (done || lia).
    injection Hh' as <-.
    destruct (IH _ _ Hacc' (lookup_insert_eq _ _ _)) as (s' & Hrun & Hiff);
      simpl in *;
      rewrite ?hist.reference_count_set_reference_count,
        ?multiplicity_difference, ?multiplicity_singleton, ?decide_True in *
        by done; [lia..|].
    exists s'. split; [done|]. rewrite Hiff. lia.
Qed.

End accounting.

Section tails.
Context {T : Type} `{History T}.

(** No record points to [t]: the records hold no reference to it. *)
Lemma referents_tail (t : addr) (h : gmap addr T) :
  (forall a r, h !! a = Some r -> hist.previous r <> Some t) ->
  multiplicity t (referents h) = 0%nat.
Proof.
  induction h as [|a r h Ha _ IH] using map_first_key_ind; intros Htail.
  - by rewrite referents_empty, multiplicity_empty.
  - rewrite referents_insert, multiplicity_disj_union, multiplicity_pointee
      by done.
    rewrite decide_False by (apply (Htail a), lookup_insert_eq).
    rewrite IH; [done|]. intros b rb Hb. apply (Htail b).
    rewrite lookup_insert_ne; [done|]. congruence.
Qed.

(** C5, as amended.  Reference counts of history chains, for any of the
    three records.  Take any sequence of constructor calls, [hist::link]
    and [hist::unlink] in which every unlink gives back a reference that
    a holder took before ([balanced]).  Then no live record has a
    negative count, and a record that still has a holder has not been
    released.  And if a live record [t] is the tail of its chain (no
    record has it as [previous]) and has [N > 0] holders, then after
    [k <= N] of them have unlinked it, [t] has been released exactly when
    [k = N].  Without the condition on the unlinks a count does become
    negative: an unlink of a new record, which nobody has linked, takes
    its count from 0 to -1.

    [hist::link] and [hist::unlink] are the definitions modelled on the
    specification; the constructors are those of TPLexPrefixTree.hh. *)
Theorem chain_reference_counts (ops : list op) (s : state T) :
  run ops initial = Some s ->
  balanced ops initial = true ->
  (forall a r, heap s !! a = Some r -> 0 <= hist.reference_count r) /\
  (forall t, t ∈ holders s -> is_Some (heap s !! t)) /\
  (forall t r (k : nat),
     heap s !! t = Some r ->
     (forall a r', heap s !! a = Some r' -> hist.previous r' <> Some t) ->
     (0 < multiplicity t (holders s))%nat ->
     (k <= multiplicity t (holders s))%nat ->
     exists s', run (replicate k (Unlink t)) s = Some s' /\
                (heap s' !! t = None <-> k = multiplicity t (holders s))).
Proof.
  intros Hrun Hbal.
  pose proof (accounted_run ops initial s Hrun Hbal accounted_initial)
    as Hacc.
  repeat split.
  - intros a r Hr. specialize (Hacc a). rewrite Hr in Hacc. lia.
  - intros t Ht. rewrite elem_of_multiplicity in Ht. specialize (Hacc t).
    unfold references in Hacc. rewrite multiplicity_disj_union in Hacc.
    destruct (heap s !! t); [done|lia].
  - intros t r k Hr Htail Hpos Hk. apply (release_tail k s t r); try done.
    specialize (Hacc t). rewrite Hr in Hacc. rewrite Hacc.
    unfold references.
    by rewrite multiplicity_disj_union, (referents_tail t (heap s)), Nat.add_0_r.
Qed.

End tails.

(** A run on word histories: two records in a chain, the newer one
    linked by two tokens, the older one linked and unlinked by one. *)
Definition two_words : list op :=
  [New 1 10 None; New 2 20 (Some 0%nat); Link 0%nat; Link 1%nat;
   Unlink 0%nat; Link 1%nat].

Definition two_words_state : state WordHistory.t :=
  State
    {[ 0%nat := WordHistory.mk 1 10 None float_zero float_zero float_zero
                  float_zero false None 1;
       1%nat := WordHistory.mk 2 20 None float_zero float_zero float_zero
                  float_zero false (Some 0%nat) 2 ]}
    {[+ 1%nat; 1%nat +]}.

Lemma chain_reference_counts_two_words :
  (run two_words initial = Some two_words_state /\
   balanced two_words initial = true) /\
  (forall a r, heap two_words_state !! a = Some r ->
               0 <= hist.reference_count r) /\
  (forall t, t ∈ holders two_words_state ->
             is_Some (heap two_words_state !! t)) /\
  (forall t r (k : nat),
     heap two_words_state !! t = Some r ->
     (forall a r', heap two_words_state !! a = Some r' ->
                   hist.previous r' <> Some t) ->
     (0 < multiplicity t (holders two_words_state))%nat ->
     (k <= multiplicity t (holders two_words_state))%nat ->
     exists s', run (replicate k (Unlink t)) two_words_state = Some s' /\
                (heap s' !! t = None <->
                 k = multiplicity t (holders two_words_state))).
Proof.
  assert (run two_words initial = Some two_words_state) as Hrun
    by (vm_compute; reflexivity).
  assert (balanced two_words (initial (T := WordHistory.t)) = true) as Hbal
    by (vm_compute; reflexivity).
  split; [by split|].
  exact (chain_reference_counts two_words two_words_state Hrun Hbal).
Defined.

(** An unlink that gives back no reference: the count of a new record,
    which nobody has linked, goes from 0 to -1, and the record stays. *)
Lemma unlink_unheld_negative :
  exists (s : state WordHistory.t) (r : WordHistory.t),
    run [New 1 10 None; Unlink 0%nat] initial = Some s /\
    balanced [New 1 10 None; Unlink 0%nat]
      (initial (T := WordHistory.t)) = false /\
    heap s !! 0%nat = Some r /\
    hist.reference_count r = -1.
Proof.
  eexists _, _. split; [vm_compute; reflexivity|].
  split; [vm_compute; reflexivity|].
  split; [vm_compute; reflexivity|]. reflexivity.
Qed.

Example two_words_released :
  heap <$> run [Unlink 1%nat; Unlink 1%nat] two_words_state = Some ∅.
Proof. vm_compute. reflexivity. Qed.

Example two_words_kept :
  heap <$> run [Unlink 1%nat] two_words_state =
  Some {[ 0%nat := WordHistory.mk 1 10 None float_zero float_zero float_zero
                     float_zero false None 1;
          1%nat := WordHistory.mk 2 20 None float_zero float_zero float_zero
                     float_zero false (Some 0%nat) 1 ]}.
Proof. vm_compute. reflexivity. Qed.

(** ** What a constructor does to the counts *)

Section constructors.
Context {T : Type} `{hist.record T}.
Implicit Types (h : gmap addr T)
  (ctor : Z -> Z -> option addr -> gmap addr T -> option (addr * gmap addr T)).

(** The call [ctor x y previous] on the heap [h] returns, and the record
    that [previous] points to, if any, has one reference more. *)
Definition takes_one_reference ctor (x y : Z) (previous : option addr) h
  : Prop :=
  exists this h',
    ctor x y previous h = Some (this, h') /\
    forall p r, previous = Some p -> h !! p = Some r ->
                exists r', h' !! p = Some r' /\
                           hist.reference_count r' = hist.reference_count r + 1.

(** The call returns a record at an address that held none; its own count
    is zero, and no count but that of [previous] has changed. *)
Definition starts_unreferenced ctor (x y : Z) (previous : option addr) h
  : Prop :=
  exists this h' new,
    ctor x y previous h = Some (this, h') /\
    h !! this = None /\
    h' !! this = Some new /\
    hist.reference_count new = 0 /\
    forall a, a <> this -> previous <> Some a ->
              hist.reference_count <$> h' !! a = hist.reference_count <$> h !! a.

Lemma created_takes_one_reference ctor x y previous h this h' :
  ctor x y previous h = Some (this, h') ->
  created previous h this h' ->
  takes_one_reference ctor x y previous h.
Proof.
  intros Hctor (Hfresh & _ & Hcount). exists this, h'. split; [done|].
  intros p r -> Hr. specialize (Hcount p).
  rewrite decide_False, decide_True, Hr in Hcount by congruence.
  destruct (h' !! p) as [r'|]; [|done]. injection Hcount as Hcount.
  exists r'. split; [done|lia].
Qed.

Lemma created_starts_unreferenced ctor x y previous h this h' :
  ctor x y previous h = Some (this, h') ->
  created previous h this h' ->
  starts_unreferenced ctor x y previous h.
Proof.
  intros Hctor (Hfresh & _ & Hcount).
  pose proof (Hcount this) as Hthis. rewrite decide_True in Hthis by done.
  destruct (h' !! this) as [new|] eqn:Hnew; [|done]. injection Hthis as Hzero.
  exists this, h', new. repeat split; try done.
  intros a Ha Hp. by rewrite Hcount, !decide_False.
Qed.

End constructors.

(** C7.  Each of the three constructors, called with a null pointer or a
    pointer to a live record, returns; when [previous] is not null, the
    reference count of the record it points to has gone up by exactly
    one.  ([hist::link] is the spec's increment.) *)
Theorem constructors_link_previous (x y : Z) (previous : option addr)
    (lm : gmap addr LMHistory.t) (word : gmap addr WordHistory.t)
    (st : gmap addr StateHistory.t) :
  valid previous lm -> valid previous word -> valid previous st ->
  takes_one_reference LMHistory.LMHistory x y previous lm /\
  takes_one_reference WordHistory.WordHistory x y previous word /\
  takes_one_reference StateHistory.StateHistory x y previous st.
Proof.
  intros Hlm Hword Hst.
  destruct (LMHistory_created x y previous lm Hlm) as (? & ? & ? & ?).
  destruct (WordHistory_created x y previous word Hword) as (? & ? & ? & ?).
  destruct (StateHistory_created x y previous st Hst) as (? & ? & ? & ?).
  repeat split; eapply created_takes_one_reference; eassumption.
Qed.

(** C10.  The record that a constructor has just built has
    [reference_count] zero, whether [previous] is null or not; the only
    count the constructor changes is that of [previous]. *)
Theorem constructors_start_unreferenced (x y : Z) (previous : option addr)
    (lm : gmap addr LMHistory.t) (word : gmap addr WordHistory.t)
    (st : gmap addr StateHistory.t) :
  valid previous lm -> valid previous word -> valid previous st ->
  starts_unreferenced LMHistory.LMHistory x y previous lm /\
  starts_unreferenced WordHistory.WordHistory x y previous word /\
  starts_unreferenced StateHistory.StateHistory x y previous st.
Proof.
  intros Hlm Hword Hst.
  destruct (LMHistory_created x y previous lm Hlm) as (? & ? & ? & ?).
  destruct (WordHistory_created x y previous word Hword) as (? & ? & ? & ?).
  destruct (StateHistory_created x y previous st Hst) as (? & ? & ? & ?).
  repeat split; eapply created_starts_unreferenced; eassumption.
Qed.

(** Heaps with one record each, at address 0.  The word history has
    the cumulative log-probabilities -1.5 and -1.25. *)
Definition first_lm : LMHistory.t := LMHistory.mk 1 1 None 0 true 5.

Definition first_word : WordHistory.t :=
  WordHistory.mk 1 10 (Some 4) float_zero float_zero
    (S754_finite true 3 (-1)) (S754_finite true 5 (-2)) false None 0.

Definition one_lm : gmap addr LMHistory.t := {[ 0%nat := first_lm ]}.

Definition one_word : gmap addr WordHistory.t := {[ 0%nat := first_word ]}.

Definition one_state : gmap addr StateHistory.t :=
  {[ 0%nat := StateHistory.mk 1 0 None None 0 ]}.

Example LMHistory_after_one :
  LMHistory.LMHistory 7 3 (Some 0%nat) one_lm =
  Some (1%nat, {[ 0%nat := LMHistory.mk 1 1 None 1 true 5;
                  1%nat := LMHistory.mk 7 3 (Some 0%nat) 0 false 0 ]}).
Proof. vm_compute. reflexivity. Qed.

Example WordHistory_after_one :
  WordHistory.WordHistory 7 30 (Some 0%nat) one_word =
  Some (1%nat,
        {[ 0%nat := WordHistory.mk 1 10 (Some 4) float_zero float_zero
                      (S754_finite true 3 (-1)) (S754_finite true 5 (-2))
                      false None 1;
           1%nat := WordHistory.mk 7 30 None float_zero float_zero
                      (S754_finite true 3 (-1)) (S754_finite true 5 (-2))
                      false (Some 0%nat) 0 ]}).
Proof. vm_compute. reflexivity. Qed.

Example StateHistory_after_one :
  StateHistory.StateHistory 7 30 (Some 0%nat) one_state =
  Some (1%nat, {[ 0%nat := StateHistory.mk 1 0 None None 1;
                  1%nat := StateHistory.mk 7 30 None (Some 0%nat) 0 ]}).
Proof. vm_compute. reflexivity. Qed.

Lemma valid_one {T : Type} (r : T) : valid (Some 0%nat) ({[ 0%nat := r ]} : gmap addr T).
Proof. exists r. apply lookup_singleton_eq. Defined.

Lemma constructors_link_previous_after_one :
  (valid (Some 0%nat) one_lm /\ valid (Some 0%nat) one_word /\
   valid (Some 0%nat) one_state) /\
  takes_one_reference LMHistory.LMHistory 7 3 (Some 0%nat) one_lm /\
  takes_one_reference WordHistory.WordHistory 7 3 (Some 0%nat) one_word /\
  takes_one_reference StateHistory.StateHistory 7 3 (Some 0%nat) one_state.
Proof.
  split; [repeat split; apply valid_one|].
  apply constructors_link_previous; apply valid_one.
Defined.

Lemma constructors_start_unreferenced_after_one :
  (valid (Some 0%nat) one_lm /\ valid (Some 0%nat) one_word /\
   valid (Some 0%nat) one_state) /\
  starts_unreferenced LMHistory.LMHistory 7 3 (Some 0%nat) one_lm /\
  starts_unreferenced WordHistory.WordHistory 7 3 (Some 0%nat) one_word /\
  starts_unreferenced StateHistory.StateHistory 7 3 (Some 0%nat) one_state.
Proof.
  split; [repeat split; apply valid_one|].
  apply constructors_start_unreferenced; apply valid_one.
Defined.

(** ** Cumulative log-probabilities *)

(** A record carries a log-probability when one of its fields is a
    [float]. *)
Definition carries_log_prob (fields : list (string * value)) : Prop :=
  exists name f, (name, Float f) ∈ fields.

Lemma LMHistory_no_log_prob (r : LMHistory.t) :
  ~ carries_log_prob (LMHistory.fields r).
Proof.
  intros (name & f & Hin). unfold LMHistory.fields in Hin.
  rewrite !elem_of_cons, elem_of_nil in Hin. intuition discriminate.
Qed.

(** C6, as far as it holds.  A [WordHistory] built on a previous record
    has the two cumulative log-probabilities of that record, copied by
    the constructor.  An [LMHistory] has no field for a log-probability:
    its constructor stores its three arguments, the count zero, [printed]
    false and [word_start_frame] zero, and nothing of the previous
    record. *)
Theorem WordHistory_copies_cum_log_probs (word_id end_frame lm_id : Z)
    (p : addr) (word : gmap addr WordHistory.t) (lm : gmap addr LMHistory.t)
    (word_prev : WordHistory.t) (lm_prev : LMHistory.t) :
  word !! p = Some word_prev ->
  lm !! p = Some lm_prev ->
  (exists this word' new,
     WordHistory.WordHistory word_id end_frame (Some p) word =
       Some (this, word') /\
     word' !! this = Some new /\
     WordHistory.cum_lm_log_prob new = WordHistory.cum_lm_log_prob word_prev /\
     WordHistory.cum_am_log_prob new = WordHistory.cum_am_log_prob word_prev) /\
  (exists this lm' new,
     LMHistory.LMHistory word_id lm_id (Some p) lm = Some (this, lm') /\
     lm' !! this = Some new /\
     new = LMHistory.mk word_id lm_id (Some p) 0 false 0 /\
     ~ carries_log_prob (LMHistory.fields new)).
Proof.
  intros Hword Hlm. split.
  - eexists _, _, _. split; [by apply WordHistory_linked|].
    assert (p <> fresh (dom word)) by (apply valid_not_fresh; eexists; done).
    rewrite lookup_insert_ne, lookup_insert_eq by done. by repeat split.
  - eexists _, _, _. split; [by apply LMHistory_linked|].
    assert (p <> fresh (dom lm)) by (apply valid_not_fresh; eexists; done).
    rewrite lookup_insert_ne, lookup_insert_eq by done.
    repeat split. apply LMHistory_no_log_prob.
Qed.

Lemma WordHistory_copies_cum_log_probs_after_one :
  (one_word !! 0%nat = Some first_word /\ one_lm !! 0%nat = Some first_lm) /\
  (exists this word' new,
     WordHistory.WordHistory 7 30 (Some 0%nat) one_word = Some (this, word') /\
     word' !! this = Some new /\
     WordHistory.cum_lm_log_prob new = S754_finite true 3 (-1) /\
     WordHistory.cum_am_log_prob new = S754_finite true 5 (-2)) /\
  (exists this lm' new,
     LMHistory.LMHistory 7 3 (Some 0%nat) one_lm = Some (this, lm') /\
     lm' !! this = Some new /\
     new = LMHistory.mk 7 3 (Some 0%nat) 0 false 0 /\
     ~ carries_log_prob (LMHistory.fields new)).
Proof.
  split; [split; apply lookup_singleton_eq|].
  exact (WordHistory_copies_cum_log_probs 7 30 3 0%nat one_word one_lm
           first_word first_lm (lookup_singleton_eq _ _) (lookup_singleton_eq _ _)).
Defined.

(** C6 as it was stated fails for [LMHistory]: the record that the
    constructor builds on a previous record carries no log-probability,
    cumulative or not. *)
Lemma LMHistory_carries_no_log_prob :
  exists this lm' new,
    LMHistory.LMHistory 7 3 (Some 0%nat) one_lm = Some (this, lm') /\
    lm' !! this = Some new /\
    LMHistory.fields new =
      [("word_id", Int 7); ("lm_id", Int 3); ("previous", Pointer (Some 0%nat));
       ("reference_count", Int 0); ("printed", Bool false);
       ("word_start_frame", Int 0)] /\
    ~ carries_log_prob (LMHistory.fields new).
Proof.
  eexists _, _, _. split; [apply LMHistory_after_one|].
  split; [vm_compute; reflexivity|].
  split; [reflexivity|]. apply LMHistory_no_log_prob.
Qed.


Local Close Scope string_scope.
From Stdlib Require Import Ascii.

(** * More on the constructors of the history records

    What a constructor leaves as it was, and the chain that the new
    record heads. *)

Section histories.
Context {T : Type} `{hist.record T}.
Implicit Types (h : gmap addr T)
  (ctor : Z -> Z -> option addr -> gmap addr T -> option (addr * gmap addr T)).

(** No record of the heap points to an address that holds no record. *)
Definition closed h : Prop :=
  forall a r, h !! a = Some r -> valid (hist.previous r) h.

(** The first [n] records of the chain that starts at [p], newest
    first. *)
Fixpoint chain (n : nat) (p : option addr) h : list addr :=
  match n, p with
  | S n, Some a =>
      match h !! a with
      | Some r => a :: chain n (hist.previous r) h
      | None => []
      end
  | _, _ => []
  end.

(** The call returns a record at [this], an address that held no
    record; the heap has this one record more, the record that
    [previous] points to differs in its count only, and every other
    record is what it was. *)
Definition keeps_records ctor (x y : Z) (previous : option addr) h : Prop :=
  exists this h',
    ctor x y previous h = Some (this, h') /\
    h !! this = None /\
    is_Some (h' !! this) /\
    dom h' = {[this]} ∪ dom h /\
    (forall a, a <> this -> previous <> Some a -> h' !! a = h !! a) /\
    (forall p r, previous = Some p -> h !! p = Some r ->
       h' !! p =
       Some (hist.set_reference_count (hist.reference_count r + 1) r)).

(** The call returns a record at [this]; the heap is closed again, the
    chains of the records that were there are what they were, and the
    chain of the new record is the new record and then the chain of
    [previous]. *)
Definition extends_chain ctor (x y : Z) (previous : option addr) h : Prop :=
  exists this h',
    ctor x y previous h = Some (this, h') /\
    closed h' /\
    (forall n a, is_Some (h !! a) -> chain n (Some a) h' = chain n (Some a) h) /\
    (forall n, chain (S n) (Some this) h' = this :: chain n previous h).

Lemma keeps_records_null ctor x y h (new : T) :
  ctor x y None h = Some (fresh (dom h), <[fresh (dom h) := new]> h) ->
  keeps_records ctor x y None h.
Proof.
  intros Hctor. eexists _, _. split; [done|].
  split; [apply fresh_not_live|].
  split; [by rewrite lookup_insert_eq|]. split; [|split].
  - by rewrite dom_insert_L.
  - intros a Ha _. by rewrite lookup_insert_ne.
  - done.
Qed.

Lemma keeps_records_linked ctor x y (p : addr) h (r new : T) :
  h !! p = Some r ->
  ctor x y (Some p) h =
    Some (fresh (dom h),
          <[p := hist.set_reference_count (hist.reference_count r + 1) r]>
            (<[fresh (dom h) := new]> h)) ->
  keeps_records ctor x y (Some p) h.
Proof.
  intros Hr Hctor.
  assert (p <> fresh (dom h)) by (apply valid_not_fresh; eexists; done).
  eexists _, _. split; [done|]. split; [apply fresh_not_live|].
  split; [by rewrite lookup_insert_ne, lookup_insert_eq|]. split; [|split].
  - rewrite dom_insert_lookup_L, dom_insert_L; [done|].
    by rewrite lookup_insert_ne.
  - intros a Ha Hp. rewrite !lookup_insert_ne; [done|done|congruence].
  - intros ? r' [= <-] Hr'. rewrite lookup_insert_eq. congruence.
Qed.

Lemma created_chain previous h this h' (n : nat) (a : addr) :
  created previous h this h' -> closed h -> is_Some (h !! a) ->
  chain n (Some a) h' = chain n (Some a) h.
Proof.
  intros (Hfresh & Hprev & _) Hclosed. revert a.
  induction n as [|n IH]; intros a [r Hr]; [done|]. simpl.
  pose proof (Hprev a) as Ha.
  rewrite decide_False, Hr in Ha by congruence.
  destruct (h' !! a) as [r'|]; [|done]. injection Ha as Ha.
  rewrite Hr, Ha. f_equal.
  pose proof (Hclosed a r Hr) as Hv.
  destruct (hist.previous r) as [p|]; [by apply IH|]. by destruct n.
Qed.

Lemma created_extends_chain ctor x y previous h this h' :
  ctor x y previous h = Some (this, h') ->
  created previous h this h' ->
  closed h -> valid previous h ->
  extends_chain ctor x y previous h.
Proof.
  intros Hctor Hcreated Hclosed Hv. exists this, h'.
  pose proof Hcreated as (Hfresh & Hprev & _).
  assert (forall a, is_Some (h !! a) -> is_Some (h' !! a)) as Hlive.
  { intros a [r Hr]. pose proof (Hprev a) as Ha.
    rewrite decide_False, Hr in Ha by congruence.
    by destruct (h' !! a). }
  assert (forall p, valid p h -> valid p h') as Hvalid.
  { intros [p|]; simpl; [apply Hlive|done]. }
  split; [done|]. split; [|split].
  - intros a r' Hr'. pose proof (Hprev a) as Ha. rewrite Hr' in Ha.
    destruct (decide (a = this)) as [->|Hne].
    + injection Ha as ->. by apply Hvalid.
    + destruct (h !! a) as [r|] eqn:Hr; [|done]. injection Ha as ->.
      apply Hvalid. by apply (Hclosed a).
  - intros n a Ha. by apply (created_chain previous h this).
  - intros n. simpl. pose proof (Hprev this) as Hthis.
    rewrite decide_True in Hthis by done.
    destruct (h' !! this) as [new|]; [|done]. injection Hthis as ->.
    f_equal. destruct previous as [p|]; [|by destruct n].
    by apply (created_chain (Some p) h this).
Qed.

End histories.

(** The constructors add one record, at an address that held none, and
    leave the records of the heap as they are, but for the reference
    count of [previous]. *)
Theorem constructors_keep_records (x y : Z) (previous : option addr)
    (lm : gmap addr LMHistory.t) (word : gmap addr WordHistory.t)
    (st : gmap addr StateHistory.t) :
  valid previous lm -> valid previous word -> valid previous st ->
  keeps_records LMHistory.LMHistory x y previous lm /\
  keeps_records WordHistory.WordHistory x y previous word /\
  keeps_records StateHistory.StateHistory x y previous st.
Proof.
  intros Hlm Hword Hst. repeat split; destruct previous as [p|].
  - destruct Hlm as [r Hr].
    eapply keeps_records_linked; [done|by apply LMHistory_linked].
  - eapply keeps_records_null, LMHistory_null.
  - destruct Hword as [r Hr].
    eapply keeps_records_linked; [done|by apply WordHistory_linked].
  - eapply keeps_records_null, WordHistory_null.
  - destruct Hst as [r Hr].
    eapply keeps_records_linked; [done|by apply StateHistory_linked].
  - eapply keeps_records_null, StateHistory_null.
Qed.

(** In a heap without dangling pointers, the chain of a new record is
    the record followed by the chain of [previous], and no chain that was
    there changes. *)
Theorem constructors_extend_chain (x y : Z) (previous : option addr)
    (lm : gmap addr LMHistory.t) (word : gmap addr WordHistory.t)
    (st : gmap addr StateHistory.t) :
  closed lm -> closed word -> closed st ->
  valid previous lm -> valid previous word -> valid previous st ->
  extends_chain LMHistory.LMHistory x y previous lm /\
  extends_chain WordHistory.WordHistory x y previous word /\
  extends_chain StateHistory.StateHistory x y previous st.
Proof.
  intros Clm Cword Cst Hlm Hword Hst.
  destruct (LMHistory_created x y previous lm Hlm) as (? & ? & ? & ?).
  destruct (WordHistory_created x y previous word Hword) as (? & ? & ? & ?).
  destruct (StateHistory_created x y previous st Hst) as (? & ? & ? & ?).
  repeat split; eapply created_extends_chain; eassumption.
Qed.

Lemma closed_one {T : Type} `{hist.record T} (r : T) :
  hist.previous r = None -> closed ({[ 0%nat := r ]} : gmap addr T).
Proof.
  intros Hr a r' Ha. apply lookup_singleton_Some in Ha as [_ <-].
  by rewrite Hr.
Defined.

Lemma constructors_keep_records_after_one :
  (valid (Some 0%nat) one_lm /\ valid (Some 0%nat) one_word /\
   valid (Some 0%nat) one_state) /\
  keeps_records LMHistory.LMHistory 7 3 (Some 0%nat) one_lm /\
  keeps_records WordHistory.WordHistory 7 3 (Some 0%nat) one_word /\
  keeps_records StateHistory.StateHistory 7 3 (Some 0%nat) one_state.
Proof.
  split; [repeat split; apply valid_one|].
  apply constructors_keep_records; apply valid_one.
Defined.

Lemma constructors_extend_chain_after_one :
  ((closed one_lm /\ closed one_word /\ closed one_state) /\
   valid (Some 0%nat) one_lm /\ valid (Some 0%nat) one_word /\
   valid (Some 0%nat) one_state) /\
  extends_chain LMHistory.LMHistory 7 3 (Some 0%nat) one_lm /\
  extends_chain WordHistory.WordHistory 7 3 (Some 0%nat) one_word /\
  extends_chain StateHistory.StateHistory 7 3 (Some 0%nat) one_state.
Proof.
  assert (closed one_lm /\ closed one_word /\ closed one_state) as Hclosed
    by (repeat split; by apply closed_one).
  split; [split; [done|repeat split; apply valid_one]|].
  destruct Hclosed as (Hlm & Hword & Hst).
  apply constructors_extend_chain; (done || apply valid_one).
Defined.

(** Three word histories built one on the other, and the chain of the
    last. *)
Example chain_of_three :
  ('(a, h) ← WordHistory.WordHistory 1 10 None ∅;
   '(b, h) ← WordHistory.WordHistory 2 20 (Some a) h;
   '(c, h) ← WordHistory.WordHistory 3 30 (Some b) h;
   Some (chain 5 (Some c) h)) = Some [2; 1; 0]%nat.
Proof. vm_compute. reflexivity. Qed.

(** * Nodes of the prefix tree and their flags *)

Module TPLexPrefixTree.

Definition NODE_NORMAL : Z := 0x00.
Definition NODE_USE_WORD_END_BEAM : Z := 0x01.
Definition NODE_AFTER_WORD_ID : Z := 0x02.
Definition NODE_FAN_OUT : Z := 0x04.
Definition NODE_FAN_OUT_FIRST : Z := 0x08.
Definition NODE_FAN_IN : Z := 0x10.
Definition NODE_FAN_IN_FIRST : Z := 0x20.
Definition NODE_INSERT_WORD_BOUNDARY : Z := 0x40.
Definition NODE_FAN_IN_CONNECTION : Z := 0x80.
Definition NODE_LINKED : Z := 0x0100.
Definition NODE_SILENCE_FIRST : Z := 0x0200.
Definition NODE_FIRST_STATE_OF_WORD : Z := 0x0400.
Definition NODE_FINAL : Z := 0x0800.
Definition NODE_DEBUG_PRUNED : Z := 0x4000.
Definition NODE_DEBUG_PRINTED : Z := 0x8000.

(** The flags that mark a node, all but [NODE_NORMAL]. *)
Definition node_flags : list Z :=
  [NODE_USE_WORD_END_BEAM; NODE_AFTER_WORD_ID; NODE_FAN_OUT;
   NODE_FAN_OUT_FIRST; NODE_FAN_IN; NODE_FAN_IN_FIRST;
   NODE_INSERT_WORD_BOUNDARY; NODE_FAN_IN_CONNECTION; NODE_LINKED;
   NODE_SILENCE_FIRST; NODE_FIRST_STATE_OF_WORD; NODE_FINAL;
   NODE_DEBUG_PRUNED; NODE_DEBUG_PRINTED].

Record Arc := {
  log_prob : float;
  next : option addr
}.

(** [class Node], without its look-ahead cache (SimpleHashCache.hh is not
    among the sources).  [flags] is an [unsigned short]. *)
Record Node := mk {
  word_id : Z;
  node_id : option Z;
  state : option addr;
  token_list : option addr;
  arcs : list Arc;
  flags : Z;
  possible_word_id_list : list Z
}.

(** [Node()], [Node(int wid)] and [Node(int wid, HmmState *s)]. *)
Definition Node0 : Node := mk (-1) None None None [] NODE_NORMAL [].

Definition Node1 (wid : Z) : Node := mk wid None None None [] NODE_NORMAL [].

Definition Node2 (wid : Z) (s : option addr) : Node :=
  mk wid None s None [] NODE_NORMAL [].

End TPLexPrefixTree.

Section node_flags.
Import TPLexPrefixTree.

Lemma node_flags_bits :
  Forall (fun flag => exists k, 0 <= k < 16 /\ flag = 2 ^ k) node_flags.
Proof.
  unfold node_flags.
  repeat first
    [ apply Forall_nil_2
    | apply Forall_cons_2;
      [ first [ by exists 0 | by exists 1 | by exists 2 | by exists 3
              | by exists 4 | by exists 5 | by exists 6 | by exists 7
              | by exists 8 | by exists 9 | by exists 10 | by exists 11
              | by exists 14 | by exists 15 ] | ] ].
Qed.

Lemma lor_unsigned_short (a b : Z) :
  0 <= a < 2 ^ 16 -> 0 <= b < 2 ^ 16 -> 0 <= Z.lor a b < 2 ^ 16.
Proof.
  intros Ha Hb. split; [apply Z.lor_nonneg; lia|].
  destruct (decide (Z.lor a b = 0)) as [->|Hne]; [done|].
  assert (0 <= Z.lor a b) by (apply Z.lor_nonneg; lia).
  apply Z.log2_lt_pow2; [lia|]. rewrite Z.log2_lor by lia.
  destruct (decide (a = 0)) as [->|]; destruct (decide (b = 0)) as [->|];
    simpl; try lia.
  - apply Z.max_lub_lt; [done|]. apply Z.log2_lt_pow2; lia.
  - apply Z.max_lub_lt; [|done]. apply Z.log2_lt_pow2; lia.
  - apply Z.max_lub_lt; apply Z.log2_lt_pow2; lia.
Qed.

Lemma node_flags_NoDup : NoDup node_flags.
Proof. apply (bool_decide_unpack _). vm_compute. reflexivity. Qed.

Lemma land_pow2_other (k j : Z) :
  0 <= k -> 0 <= j -> k <> j -> Z.land (2 ^ k) (2 ^ j) = 0.
Proof.
  intros Hk Hj Hne. apply Z.bits_inj'. intros i Hi.
  rewrite Z.land_spec, Z.bits_0, !Z.pow2_bits_eqb by lia.
  destruct (Z.eqb_spec k i) as [->|]; [|done].
  destruct (Z.eqb_spec j i) as [->|]; done.
Qed.

(** The flags are distinct single bits of the [unsigned short] field
    [flags]: each macro of the list is a power of two below 2^16, and
    two macros at different places of the list have no bit in common.
    A node from any constructor has none of them; or-ing one into the
    field ([flags | flag]) keeps the value in the field's range, makes
    the test of the flag ([flags & flag]) give the flag, and leaves the
    test of every other flag of the list as it was. *)
Theorem node_flags_independent (i j : nat) (flag other : Z) (node : Node)
    (wid : Z) (s : option addr) :
  node_flags !! i = Some flag -> node_flags !! j = Some other ->
  0 <= flags node < 2 ^ 16 ->
  (exists k, 0 <= k < 16 /\ flag = 2 ^ k) /\
  (i <> j -> flag <> other /\ Z.land flag other = 0) /\
  (Z.land (flags Node0) flag = 0 /\ Z.land (flags (Node1 wid)) flag = 0 /\
   Z.land (flags (Node2 wid s)) flag = 0) /\
  0 <= Z.lor (flags node) flag < 2 ^ 16 /\
  Z.land (Z.lor (flags node) flag) flag = flag /\
  (i <> j ->
   Z.land (Z.lor (flags node) flag) other = Z.land (flags node) other).
Proof.
  intros Hflag Hother Hrange. pose proof node_flags_bits as Hbits.
  rewrite Forall_forall in Hbits.
  assert (i <> j -> flag <> other) as Hne.
  { intros Hij ->.
    by apply Hij, (NoDup_lookup node_flags i j other node_flags_NoDup). }
  apply list_elem_of_lookup_2 in Hflag, Hother.
  destruct (Hbits flag (proj1 (list_elem_of_In _ _) Hflag)) as (k & Hk & ->).
  destruct (Hbits other (proj1 (list_elem_of_In _ _) Hother)) as (k' & Hk' & ->).
  split; [by exists k|]. split; [|split; [|split; [|split]]].
  - intros Hij. split; [by apply Hne|].
    apply land_pow2_other; [lia..|]. intros ->. by apply Hne.
  - done.
  - apply lor_unsigned_short; [done|]. split; [lia|].
    apply Z.pow_lt_mono_r; lia.
  - apply Z.bits_inj'. intros n Hn. rewrite Z.land_spec, Z.lor_spec.
    destruct (Z.testbit (2 ^ k) n);
      [by rewrite orb_true_r|apply andb_false_r].
  - intros Hij. apply Z.bits_inj'. intros n Hn.
    rewrite !Z.land_spec, Z.lor_spec, !Z.pow2_bits_eqb by lia.
    destruct (Z.eqb_spec k' n) as [->|]; [|by rewrite !andb_false_r].
    destruct (Z.eqb_spec k n) as [->|]; [by destruct (Hne Hij)|].
    by rewrite orb_false_r.
Qed.

Lemma node_flags_independent_fan :
  (node_flags !! 2%nat = Some NODE_FAN_OUT /\
   node_flags !! 4%nat = Some NODE_FAN_IN /\
   0 <= flags (Node1 7) < 2 ^ 16) /\
  (exists k, 0 <= k < 16 /\ NODE_FAN_OUT = 2 ^ k) /\
  (2%nat <> 4%nat ->
   NODE_FAN_OUT <> NODE_FAN_IN /\ Z.land NODE_FAN_OUT NODE_FAN_IN = 0) /\
  (Z.land (flags Node0) NODE_FAN_OUT = 0 /\
   Z.land (flags (Node1 7)) NODE_FAN_OUT = 0 /\
   Z.land (flags (Node2 7 None)) NODE_FAN_OUT = 0) /\
  0 <= Z.lor (flags (Node1 7)) NODE_FAN_OUT < 2 ^ 16 /\
  Z.land (Z.lor (flags (Node1 7)) NODE_FAN_OUT) NODE_FAN_OUT = NODE_FAN_OUT /\
  (2%nat <> 4%nat ->
   Z.land (Z.lor (flags (Node1 7)) NODE_FAN_OUT) NODE_FAN_IN =
   Z.land (flags (Node1 7)) NODE_FAN_IN).
Proof.
  assert (0 <= flags (Node1 7) < 2 ^ 16) as Hrange by done.
  split; [done|].
  exact (node_flags_independent 2 4 NODE_FAN_OUT NODE_FAN_IN (Node1 7) 7 None
           eq_refl eq_refl Hrange).
Defined.

End node_flags.

(** * The directories of the tools

    The script puts the directory given with [-D] or [-s] in front of the
    names of the tools it runs, after this: *)

(** [if (length($dir) > 0 && substr($dir, -1, 1) ne "/") { $dir = $dir."/"; }] *)
Definition with_slash (dir : string) : string :=
  if (0 <? String.length dir)%nat
     && negb (String.eqb
                (String.substring (String.length dir - 1) 1 dir) "/")
  then String.append dir "/"
  else dir.

(** ["${dir}name"] *)
Definition tool_path (dir name : string) : string :=
  String.append (with_slash dir) name.


Example tool_paths :
  (with_slash "", with_slash "bin", with_slash "bin/", with_slash "/",
   tool_path "" "phone_probs", tool_path "/opt/aku" "phone_probs")
  = (""%string, "bin/"%string, "bin/"%string, "/"%string,
     "phone_probs"%string, "/opt/aku/phone_probs"%string).
Proof. reflexivity. Qed.

(** The last character of [s] is a slash. *)
Fixpoint ends_in_slash (s : string) : bool :=
  match s with
  | EmptyString => false
  | String c EmptyString => Ascii.eqb c "/"%char
  | String _ s' => ends_in_slash s'
  end.

Lemma substring_last (s : string) :
  s <> EmptyString ->
  String.eqb (String.substring (String.length s - 1) 1 s) "/" =
  ends_in_slash s.
Proof.
  induction s as [|c s IH]; [done|]. intros _.
  destruct s as [|c' s].
  - simpl. by destruct (Ascii.eqb c "/"%char).
  - change (ends_in_slash (String c (String c' s)))
      with (ends_in_slash (String c' s)).
    rewrite <- IH by done. cbn [String.length].
    replace (S (S (String.length s)) - 1)%nat with (S (String.length s))
      by lia.
    replace (S (String.length s) - 1)%nat with (String.length s) by lia.
    reflexivity.
Qed.

Lemma ends_in_slash_append (s : string) :
  ends_in_slash (String.append s "/") = true.
Proof.
  induction s as [|c s IH]; [done|]. simpl in *.
  destruct (String.append s "/") eqn:Happ; [|done].
  by destruct s.
Qed.

Lemma ends_in_slash_stem (s : string) :
  ends_in_slash s = true -> exists stem, s = String.append stem "/".
Proof.
  induction s as [|c s IH]; [done|]. simpl.
  destruct s as [|c' s].
  - intros Hc. apply Ascii.eqb_eq in Hc as ->. by exists EmptyString.
  - intros Hs. destruct (IH Hs) as [stem ->]. by exists (String c stem).
Qed.

Lemma with_slash_cases (dir : string) :
  with_slash dir =
  if negb (String.eqb dir "") && negb (ends_in_slash dir)
  then String.append dir "/" else dir.
Proof.
  unfold with_slash. destruct dir as [|c dir]; [done|].
  by rewrite substring_last.
Qed.

(** A directory is left empty; one that ends in a slash is left as it
    is; any other gets one slash at its end.  Doing it twice changes
    nothing more. *)
Theorem with_slash_ends_in_slash (dir : string) :
  with_slash (with_slash dir) = with_slash dir /\
  (dir = EmptyString -> with_slash dir = EmptyString) /\
  (forall stem, dir = String.append stem "/" -> with_slash dir = dir) /\
  (dir <> EmptyString ->
   (forall stem, dir <> String.append stem "/") ->
   with_slash dir = String.append dir "/").
Proof.
  rewrite !with_slash_cases. split; [|split; [|split]].
  - destruct dir as [|c dir]; [done|]. cbn [String.eqb negb andb].
    destruct (ends_in_slash (String c dir)) eqn:Hslash; cbn [negb].
    + by rewrite Hslash.
    + by rewrite ends_in_slash_append, andb_false_r.
  - by intros ->.
  - intros stem ->. by rewrite ends_in_slash_append, andb_false_r.
  - intros Hne Hstem. destruct dir as [|c dir]; [done|].
    cbn [String.eqb negb andb].
    destruct (ends_in_slash (String c dir)) eqn:Hslash; [|done].
    destruct (ends_in_slash_stem _ Hslash) as [stem Heq].
    by destruct (Hstem stem).
Qed.

Example with_slash_adds_no_second_slash :
  (with_slash "/", with_slash "a//", with_slash "a/b")
  = ("/"%string, "a//"%string, "a/b/"%string).
Proof. reflexivity. Qed.

(** * The check of a word graph file ([check_wg_file])

    A word graph file announces its numbers of nodes and links ([N=] at
    the start of a line, [L=] after a blank) and then lists them, from the
    first line that starts with [I=] on.  The check counts lines.  What
    the three patterns match in a line is given by [is_I], [N_of] and
    [L_of] (the number that the pattern captures). *)

Section check_wg_file.
Context {Line : Type}.
Variable is_I : Line -> bool.
Variables N_of L_of : Line -> option Z.

(** The outer [while (<$fh>)], from the values of [$i] and [$lines]
    before a line is read to their values after the loop.  The inner loop
    counts the lines that are left. *)
Fixpoint count_lines (i lines : Z) (file : list Line) : Z * Z :=
  match file with
  | [] => (i, lines)
  | line :: file =>
      let i := i + 1 in
      if is_I line then (i + Z.of_nat (length file), lines + (i - 1))
      else
        let lines := lines + default 0 (N_of line) in
        let lines := lines + default 0 (L_of line) in
        count_lines i lines file
  end.

(** [check_wg_file($file)]; [None] is a file that cannot be opened.  In
    [open $fh, "< $file" || return 0] the operator [||] applies to the
    string, which is never false: the function goes on and reads no
    line. *)
Definition check_wg_file (file : option (list Line)) : bool :=
  let '(i, lines) := count_lines 0 0 (default [] file) in
  if decide (i <> lines) then false else true.

(** The numbers that the lines of a header announce. *)
Definition announced (header : list Line) : Z :=
  foldr (fun line sum => default 0 (N_of line) + default 0 (L_of line) + sum)
    0 header.

End check_wg_file.

(** The patterns on lines of ASCII text. *)
Definition is_blank (c : ascii) : bool :=
  bool_decide (c ∈ [" "; "009"; "010"; "011"; "012"; "013"]%char).

Definition digit_of (c : ascii) : option Z :=
  let n := Z.of_N (N_of_ascii c) in
  if decide (48 <= n <= 57) then Some (n - 48) else None.

(** [(\d+)] at the start of [s]: the number that the longest run of
    digits writes. *)
Fixpoint digits_from (value : Z) (s : string) : Z :=
  match s with
  | String c s' =>
      match digit_of c with
      | Some d => digits_from (10 * value + d) s'
      | None => value
      end
  | EmptyString => value
  end.

Definition number_at (s : string) : option Z :=
  match s with
  | String c _ =>
      match digit_of c with
      | Some _ => Some (digits_from 0 s)
      | None => None
      end
  | EmptyString => None
  end.

Definition after (n : nat) (s : string) : string :=
  String.substring n (String.length s - n) s.

(** [/^I=/] *)
Definition match_I (line : string) : bool := String.prefix "I=" line.

(** [/^N=(\d+)/] *)
Definition match_N (line : string) : option Z :=
  if String.prefix "N=" line then number_at (after 2 line) else None.

(** [/\sL=(\d+)/]: the leftmost place where the pattern matches. *)
Fixpoint match_L (line : string) : option Z :=
  match line with
  | String c line' =>
      if is_blank c && String.prefix "L=" line' then
        match number_at (after 2 line') with
        | Some n => Some n
        | None => match_L line'
        end
      else match_L line'
  | EmptyString => None
  end.

(** A word graph with three nodes and two links. *)
Definition small_header : list string :=
  ["VERSION=1.1"; "lmscale=1"; "N=3 L=2"]%string.

Definition small_body : list string :=
  ["I=1 t=0.10"; "I=2 t=0.20"; "J=0 S=0 E=1 W=a"; "J=1 S=1 E=2 W=b"]%string.

Definition small_graph : list string :=
  small_header ++ "I=0 t=0.00"%string :: small_body.

Example small_graph_patterns :
  (match_I <$> small_graph, match_N <$> small_graph, match_L <$> small_graph)
  = ([false; false; false; true; true; true; false; false],
     [None; None; Some 3; None; None; None; None; None],
     [None; None; Some 2; None; None; None; None; None]).
Proof. reflexivity. Qed.

Section check_wg_file_facts.
Context {Line : Type}.
Variable is_I : Line -> bool.
Variables N_of L_of : Line -> option Z.

Lemma count_lines_header (header file : list Line) (i lines : Z) :
  Forall (fun line => is_I line = false) header ->
  count_lines is_I N_of L_of i lines (header ++ file) =
  count_lines is_I N_of L_of (i + Z.of_nat (length header))
    (lines + announced N_of L_of header) file.
Proof.
  intros Hheader. revert i lines.
  induction Hheader as [|line header Hline _ IH]; intros i lines; simpl.
  - f_equal; lia.
  - rewrite Hline, IH. f_equal; lia.
Qed.

Lemma check_wg_file_first (header body : list Line) (first : Line) :
  Forall (fun line => is_I line = false) header ->
  is_I first = true ->
  check_wg_file is_I N_of L_of (Some (header ++ first :: body)) =
  bool_decide (1 + Z.of_nat (length body) = announced N_of L_of header).
Proof.
  intros Hheader Hfirst. unfold check_wg_file. simpl.
  rewrite count_lines_header by done. simpl. rewrite Hfirst.
  destruct (decide _).
  - rewrite bool_decide_eq_false_2; [done|lia].
  - rewrite bool_decide_eq_true_2; [done|lia].
Qed.

(** From the first line that starts with [I=] on, the file must have as
    many lines as the lines before it announce nodes and links; the
    lines before it are not counted. *)
Theorem check_wg_file_counts (header body : list Line) (first : Line) :
  Forall (fun line => is_I line = false) header ->
  is_I first = true ->
  check_wg_file is_I N_of L_of (Some (header ++ first :: body)) = true <->
  1 + Z.of_nat (length body) = announced N_of L_of header.
Proof.
  intros Hheader Hfirst. rewrite check_wg_file_first by done.
  apply bool_decide_eq_true.
Qed.

(** A file that passes does not pass with lines missing at its end, or
    with lines added, as long as its first [I=] line is there. *)
Theorem check_wg_file_cut (header body body' : list Line) (first : Line) :
  Forall (fun line => is_I line = false) header ->
  is_I first = true ->
  check_wg_file is_I N_of L_of (Some (header ++ first :: body)) = true ->
  length body' <> length body ->
  check_wg_file is_I N_of L_of (Some (header ++ first :: body')) = false.
Proof.
  intros Hheader Hfirst Hpass Hlen.
  rewrite check_wg_file_first in Hpass |- * by done.
  apply bool_decide_eq_true in Hpass.
  apply bool_decide_eq_false. lia.
Qed.

(** A file with no line that starts with [I=] passes when it has as many
    lines as it announces nodes and links: so does a file with no line at
    all, and a file that cannot be opened. *)
Theorem check_wg_file_no_nodes (file : option (list Line)) :
  Forall (fun line => is_I line = false) (default [] file) ->
  check_wg_file is_I N_of L_of file = true <->
  Z.of_nat (length (default [] file)) =
  announced N_of L_of (default [] file).
Proof.
  intros Hfile. unfold check_wg_file.
  rewrite <- (app_nil_r (default [] file)) at 1.
  rewrite count_lines_header by done. simpl.
  destruct (decide _); split; (done || lia).
Qed.

End check_wg_file_facts.

Example check_wg_file_small :
  (fun file => check_wg_file match_I match_N match_L file) <$>
    [Some small_graph; Some (take 7 small_graph); Some (take 2 small_graph);
     Some []; None]
  = [true; false; false; true; true].
Proof. reflexivity. Qed.

Lemma check_wg_file_counts_small :
  (Forall (fun line => match_I line = false) small_header /\
   match_I "I=0 t=0.00" = true) /\
  (check_wg_file match_I match_N match_L (Some small_graph) = true <->
   1 + Z.of_nat (length small_body) = announced match_N match_L small_header).
Proof.
  assert (Forall (fun line => match_I line = false) small_header) as Hheader
    by (repeat constructor).
  split; [by split|]. by apply check_wg_file_counts.
Defined.

Lemma check_wg_file_cut_small :
  (Forall (fun line => match_I line = false) small_header /\
   match_I "I=0 t=0.00" = true /\
   check_wg_file match_I match_N match_L (Some small_graph) = true /\
   length (take 3 small_body) <> length small_body) /\
  check_wg_file match_I match_N match_L
    (Some (small_header ++ "I=0 t=0.00"%string :: take 3 small_body)) = false.
Proof.
  assert (Forall (fun line => match_I line = false) small_header) as Hheader
    by (repeat constructor).
  assert (length (take 3 small_body) <> length small_body) as Hlen
    by (simpl; lia).
  split; [by repeat split|].
  by apply (check_wg_file_cut match_I match_N match_L small_header small_body).
Defined.

Lemma check_wg_file_no_nodes_unopened :
  Forall (fun line => match_I line = false) (default [] None) /\
  (check_wg_file match_I match_N match_L None = true <->
   Z.of_nat (length (default [] (None : option (list string)))) =
   announced match_N match_L (default [] None)).
Proof. split; [constructor|]. apply check_wg_file_no_nodes. constructor. Defined.



(** * Transcriptions in TRN format ([load_trn])

    A line of a TRN file is the words of an utterance and, last, the code
    of the utterance in parentheses.  Text is a list of characters;
    [is_space] says which characters the locale takes for blanks
    ([\s]). *)

Section load_trn.
Variable is_space : ascii -> bool.

(** [split] with no argument: the fields between runs of blanks; [word]
    is the field being read. *)
Fixpoint split_from (word : list ascii) (s : list ascii)
  : list (list ascii) :=
  match s with
  | [] => match word with [] => [] | _ => [word] end
  | c :: s =>
      if is_space c then
        match word with
        | [] => split_from [] s
        | _ => word :: split_from [] s
        end
      else split_from (word ++ [c]) s
  end.

Definition split (s : list ascii) : list (list ascii) := split_from [] s.

(** [join(' ', ...)] *)
Fixpoint join (fields : list (list ascii)) : list ascii :=
  match fields with
  | [] => []
  | [field] => field
  | field :: fields => field ++ " "%char :: join fields
  end.

(** [s/\s+/ /g]; [blank] says that the character before was a blank. *)
Fixpoint squeeze_from (blank : bool) (s : list ascii) : list ascii :=
  match s with
  | [] => []
  | c :: s =>
      if is_space c then
        if blank then squeeze_from true s
        else " "%char :: squeeze_from true s
      else c :: squeeze_from false s
  end.

Definition squeeze (s : list ascii) : list ascii := squeeze_from false s.

(** [substr($s, 1, -1)]: [s] without its first and its last character. *)
Definition substr_1_m1 (s : list ascii) : list ascii :=
  take (length s - 2) (drop 1 s).

(** The body of the loop of [load_trn]: the key and the transcription
    that one line gives. *)
Definition trn_entry (line : list ascii) : list ascii * list ascii :=
  let c := split line in
  let key := substr_1_m1 (List.last c []) in
  let tr := join (take (length c - 1) c) in
  let tr := filter (fun a => a <> "@"%char) tr in
  let tr := squeeze tr in
  (key, tr).

(** [load_trn], given the lines of the file and the table so far. *)
Definition load_trn (lines : list (list ascii))
    (transcript_hash : gmap (list ascii) (list ascii))
  : gmap (list ascii) (list ascii) :=
  foldl (fun table line => let '(key, tr) := trn_entry line in
                           <[key := tr]> table)
    transcript_hash lines.

End load_trn.

Definition ascii_space (c : ascii) : bool :=
  bool_decide (c ∈ [" "; "009"; "010"; "011"; "012"; "013"]%char).

Definition text (s : string) : list ascii := list_ascii_of_string s.


Definition trn_entry_of (line : string) : string * string :=
  let '(key, tr) := trn_entry ascii_space (text line) in
  (string_of_list_ascii key, string_of_list_ascii tr).

Example trn_entries :
  trn_entry_of <$>
    ["  hello  @ world (utt_01)  "; "@ a @ (k)"; "(k)"; ""]%string
  = [("utt_01", "hello world"); ("k", " a "); ("k", ""); ("", "")]%string.
Proof. reflexivity. Qed.

Section load_trn_facts.
Variable is_space : ascii -> bool.
Implicit Types (s word key : list ascii) (fields words : list (list ascii)).

(** A word as [split] gives it: not empty and without a blank. *)
Definition is_word word : Prop :=
  word <> [] /\ Forall (fun c => is_space c = false) word.

Lemma squeeze_from_head (s : list ascii) (d : ascii) :
  squeeze_from is_space true s !! 0%nat = Some d -> is_space d = false.
Proof.
  induction s as [|c s IH]; [done|]. simpl.
  destruct (is_space c) eqn:Hc; [done|]. by intros [= <-].
Qed.

Lemma squeeze_from_adjacent (blank : bool) s (i : nat) (c d : ascii) :
  squeeze_from is_space blank s !! i = Some c ->
  squeeze_from is_space blank s !! S i = Some d ->
  is_space c = true -> is_space d = false.
Proof.
  revert blank i. induction s as [|a s IH]; intros blank i; [done|].
  simpl. destruct (is_space a) eqn:Ha.
  - destruct blank; [apply IH|].
    destruct i as [|i]; simpl; [|apply IH].
    intros _ Hd _. by apply (squeeze_from_head s).
  - destruct i as [|i]; simpl; [|apply IH]. intros [= <-] _. congruence.
Qed.

Lemma squeeze_from_elem_of (blank : bool) s (c : ascii) :
  c ∈ squeeze_from is_space blank s ->
  (c ∈ s /\ is_space c = false) \/ c = " "%char.
Proof.
  revert blank. induction s as [|a s IH]; intros blank; simpl.
  - by intros ?%elem_of_nil.
  - destruct (is_space a) eqn:Ha; [destruct blank|];
      rewrite ?elem_of_cons; intros Hc.
    + destruct (IH _ Hc) as [[? ?]|?]; [left|by right]. split; [by right|done].
    + destruct Hc as [->|Hc]; [by right|].
      destruct (IH _ Hc) as [[? ?]|?]; [left|by right]. split; [by right|done].
    + destruct Hc as [->|Hc]; [left; split; [by left|done]|].
      destruct (IH _ Hc) as [[? ?]|?]; [left|by right]. split; [by right|done].
Qed.

(** The transcription of any line has no [@] left; its blanks are single
    spaces, no two of them side by side. *)
Theorem trn_entry_clean (line : list ascii) (i : nat) (c d : ascii) :
  let tr := (trn_entry is_space line).2 in
  ("@"%char ∉ tr) /\
  (c ∈ tr -> is_space c = true -> c = " "%char) /\
  (tr !! i = Some c -> tr !! S i = Some d ->
   is_space c = true -> is_space d = false).
Proof.
  simpl. unfold squeeze. split; [|split].
  - intros Hat. apply squeeze_from_elem_of in Hat as [[Hat _]|?]; [|done].
    apply list_elem_of_filter in Hat as [? _]. done.
  - intros Hc Hblank.
    apply squeeze_from_elem_of in Hc as [[_ ?]|?]; [congruence|done].
  - apply squeeze_from_adjacent.
Qed.

Lemma split_from_word word word' s :
  Forall (fun c => is_space c = false) word' ->
  split_from is_space word (word' ++ s) =
  split_from is_space (word ++ word') s.
Proof.
  intros Hword. revert word.
  induction Hword as [|c word' Hc _ IH]; intros word; simpl.
  - by rewrite app_nil_r.
  - by rewrite Hc, IH, <- app_assoc.
Qed.

Lemma split_join fields :
  is_space " "%char = true -> Forall is_word fields ->
  split is_space (join fields) = fields.
Proof.
  intros Hspace Hfields. unfold split.
  induction Hfields as [|field fields [Hne Hfield] Hrest IH]; [done|].
  destruct field as [|c field]; [done|].
  destruct fields as [|field' fields].
  - simpl join. rewrite <- (app_nil_r (c :: field)) at 1.
    by rewrite split_from_word.
  - change (join ((c :: field) :: field' :: fields))
      with ((c :: field) ++ " "%char :: join (field' :: fields)).
    rewrite split_from_word by done.
    cbn [app split_from]. by rewrite Hspace, IH.
Qed.

Lemma squeeze_from_word (blank : bool) word s :
  is_word word ->
  squeeze_from is_space blank (word ++ s) =
  word ++ squeeze_from is_space false s.
Proof.
  intros [Hne Hword]. revert blank.
  induction Hword as [|c word Hc Hword IH]; intros blank; [done|].
  simpl. rewrite Hc. f_equal. destruct word as [|c' word]; [done|].
  by apply IH.
Qed.

Lemma squeeze_from_join (blank : bool) fields :
  is_space " "%char = true -> Forall is_word fields ->
  squeeze_from is_space blank (join fields) = join fields.
Proof.
  intros Hspace Hfields. revert blank.
  induction Hfields as [|field fields Hfield Hrest IH]; intros blank; [done|].
  destruct fields as [|field' fields].
  - simpl. rewrite <- (app_nil_r field) at 1.
    rewrite squeeze_from_word by done. simpl. apply app_nil_r.
  - change (join (field :: field' :: fields))
      with (field ++ " "%char :: join (field' :: fields)).
    rewrite squeeze_from_word by done. simpl. by rewrite Hspace, IH.
Qed.

Lemma join_elem_of fields (c : ascii) :
  c ∈ join fields -> c = " "%char \/ exists field, field ∈ fields /\ c ∈ field.
Proof.
  induction fields as [|field fields IH]; [by intros ?%elem_of_nil|].
  destruct fields as [|field' fields].
  - intros Hc. right. exists field. split; [by left|done].
  - change (join (field :: field' :: fields))
      with (field ++ " "%char :: join (field' :: fields)).
    rewrite elem_of_app, elem_of_cons. intros [Hc|[->|Hc]].
    + right. exists field. split; [by left|done].
    + by left.
    + destruct (IH Hc) as [?|(f & Hf & ?)]; [by left|].
      right. exists f. split; [by right|done].
Qed.

(** A line written as words, single spaces between them, and the code in
    parentheses is read back as it was written: the code is the key and
    the words are the transcription. *)
Theorem trn_entry_written (words : list (list ascii)) (key : list ascii) :
  is_space " "%char = true ->
  is_space "("%char = false -> is_space ")"%char = false ->
  Forall is_word words ->
  Forall (fun word => ("@"%char ∉ word)) words ->
  Forall (fun c => is_space c = false) key ->
  trn_entry is_space (join (words ++ ["("%char :: key ++ [")"%char]]))
  = (key, join words).
Proof.
  intros Hspace Hopen Hclose Hwords Hat Hkey. unfold trn_entry.
  assert (is_word ("("%char :: key ++ [")"%char])) as Hcode.
  { split; [done|]. constructor; [done|].
    apply Forall_app. split; [done|]. by constructor. }
  rewrite split_join by (done || (apply Forall_app; split; [done|by constructor])).
  rewrite last_last, length_app. simpl.
  replace (length words + 1 - 1)%nat with (length words) by lia.
  rewrite take_app_length. f_equal.
  - unfold substr_1_m1. cbn [length drop]. rewrite length_app. simpl length.
    replace (S (length key + 1) - 2)%nat with (length key) by lia.
    by rewrite drop_0, take_app_length.
  - assert (filter (fun a => a <> "@"%char) (join words) = join words)
      as ->; [|by apply squeeze_from_join].
    assert (Forall (fun a => a <> "@"%char) (join words)) as Hall.
    { apply Forall_forall. intros c Hc ->. apply list_elem_of_In in Hc.
      apply join_elem_of in Hc as [?|(word & Hword & Hc)]; [done|].
      rewrite list.Forall_forall in Hat. by apply (Hat word). }
    induction Hall as [|c s Hc _ IH]; [done|].
    by rewrite filter_cons_True, IH.
Qed.

End load_trn_facts.

Definition hello_world : list (list ascii) := [text "hello"; text "world"].

Lemma trn_entry_written_hello :
  (ascii_space " " = true /\ ascii_space "(" = false /\
   ascii_space ")" = false /\
   Forall (is_word ascii_space) hello_world /\
   Forall (fun word => ("@"%char ∉ word)) hello_world /\
   Forall (fun c => ascii_space c = false) (text "utt_01")) /\
  trn_entry ascii_space (text "hello world (utt_01)") =
  (text "utt_01", text "hello world").
Proof.
  assert (Forall (is_word ascii_space) hello_world) as Hwords
    by (repeat constructor; done).
  assert (Forall (fun word => ("@"%char ∉ word)) hello_world) as Hat.
  { repeat constructor; intros Hin;
      repeat (apply elem_of_cons in Hin as [Hin|Hin]; [done|]);
      by apply elem_of_nil in Hin. }
  assert (Forall (fun c => ascii_space c = false) (text "utt_01")) as Hkey
    by (repeat constructor).
  split; [by repeat split|].
  exact (trn_entry_written ascii_space hello_world (text "utt_01")
           eq_refl eq_refl eq_refl Hwords Hat Hkey).
Defined.

(** ** The transcription of an utterance

    In [generate_transcript_fsts], with a TRN file: the transcription
    of the utterance of a record is looked up, refused when it is
    missing or empty, and then trimmed.  [None] is [die]. *)

Section transcript.
Variable is_space : ascii -> bool.

Fixpoint drop_blanks (s : list ascii) : list ascii :=
  match s with
  | c :: s' => if is_space c then drop_blanks s' else s
  | [] => []
  end.

(** [s/^\s+//] and [s/\s+$//] *)
Definition trim (s : list ascii) : list ascii :=
  reverse (drop_blanks (reverse (drop_blanks s))).

Definition transcript_of (utterance : option (list ascii))
    (transcript_hash : gmap (list ascii) (list ascii))
  : option (list ascii) :=
  u ← utterance;
  let tr := default [] (transcript_hash !! u) in
  if decide (Z.of_nat (length tr) <= 0) then None else Some (trim tr).

Lemma drop_blanks_all (s : list ascii) :
  Forall (fun c => is_space c = true) s -> drop_blanks s = [].
Proof. induction 1 as [|c s Hc _ IH]; [done|]. simpl. by rewrite Hc. Qed.

End transcript.

(** ** Lines of [@] marks *)

Section marks.
Variable is_space : ascii -> bool.

(** The words of a line that has [n] marks and nothing else. *)
Definition marks (n : nat) : list (list ascii) := replicate n ["@"%char].

(** The transcription that [load_trn] stores for a line of [n] marks,
    and what [generate_transcript_fsts] makes of it. *)
Definition marks_stored (n : nat) : list ascii :=
  if decide (2 <= n)%nat then [" "%char] else [].

Definition marks_passed (n : nat) : option (list ascii) :=
  if decide (2 <= n)%nat then Some [] else None.

Lemma filter_join_marks (n : nat) :
  filter (fun a => a <> "@"%char) (join (marks n))
  = replicate (n - 1) " "%char.
Proof.
  induction n as [|[|n] IH]; [done..|].
  change (join (marks (S (S n))))
    with ("@"%char :: " "%char :: join (marks (S n))).
  rewrite filter_cons_False by (intros Hne; by apply Hne).
  rewrite filter_cons_True by done. rewrite IH.
  replace (S (S n) - 1)%nat with (S (S n - 1)) by lia. done.
Qed.

Lemma squeeze_from_blanks (n : nat) :
  is_space " "%char = true ->
  squeeze_from is_space true (replicate n " "%char) = [].
Proof.
  intros Hspace. induction n as [|n IH]; [done|]. simpl.
  by rewrite Hspace.
Qed.

Lemma squeeze_marks (n : nat) :
  is_space " "%char = true ->
  squeeze is_space (replicate (n - 1) " "%char) = marks_stored n.
Proof.
  intros Hspace. unfold squeeze, marks_stored.
  destruct n as [|[|n]]; [done..|].
  replace (S (S n) - 1)%nat with (S n) by lia. simpl.
  by rewrite Hspace, squeeze_from_blanks.
Qed.

(** The transcription is refused when it is empty, not when it is
    blank.  For a line of two [@] marks or more and its code in
    parentheses, [load_trn] stores one blank: the transcription passes,
    and comes out empty.  For a line of one mark, or of the code alone,
    it stores the empty transcription, which is refused. *)
Theorem transcript_of_blanks (n : nat) (key : list ascii)
    (transcript_hash : gmap (list ascii) (list ascii)) :
  is_space " "%char = true -> is_space "@"%char = false ->
  is_space "("%char = false -> is_space ")"%char = false ->
  Forall (fun c => is_space c = false) key ->
  let line := join (marks n ++ ["("%char :: key ++ [")"%char]]) in
  load_trn is_space [line] transcript_hash !! key = Some (marks_stored n) /\
  transcript_of is_space (Some key) (load_trn is_space [line] transcript_hash)
  = marks_passed n.
Proof.
  intros Hspace Hat Hopen Hclose Hkey line.
  assert (Forall (is_word is_space) (marks n)) as Hmarks.
  { apply Forall_replicate. split; [done|]. by constructor. }
  assert (is_word is_space ("("%char :: key ++ [")"%char])) as Hcode.
  { split; [done|]. constructor; [done|].
    apply Forall_app. split; [done|]. by constructor. }
  assert (trn_entry is_space line = (key, marks_stored n)) as Hentry.
  { unfold trn_entry, line.
    rewrite split_join
      by (done || (apply Forall_app; split; [done|by constructor])).
    rewrite last_last, length_app. simpl.
    replace (length (marks n) + 1 - 1)%nat with (length (marks n)) by lia.
    rewrite take_app_length. f_equal.
    - unfold substr_1_m1. cbn [length drop]. rewrite length_app.
      simpl length.
      replace (S (length key + 1) - 2)%nat with (length key) by lia.
      by rewrite drop_0, take_app_length.
    - by rewrite filter_join_marks, squeeze_marks. }
  assert (load_trn is_space [line] transcript_hash !! key
          = Some (marks_stored n)) as Hstored.
  { unfold load_trn. cbn [foldl]. rewrite Hentry. apply lookup_insert_eq. }
  split; [done|].
  change (transcript_of is_space (Some key)
            (load_trn is_space [line] transcript_hash))
    with (let tr := default [] (load_trn is_space [line] transcript_hash
                                  !! key) in
          if decide (Z.of_nat (length tr) <= 0) then None
          else Some (trim is_space tr)).
  rewrite Hstored. unfold marks_stored, marks_passed.
  destruct (decide (2 <= n)%nat); simpl; [|done].
  unfold trim. simpl. by rewrite Hspace.
Qed.

End marks.

(** A TRN line of two [@] marks: its transcription is one blank, which
    passes as the empty transcription. *)
Lemma transcript_of_blanks_marks :
  (ascii_space " " = true /\ ascii_space "@" = false /\
   ascii_space "(" = false /\ ascii_space ")" = false /\
   Forall (fun c => ascii_space c = false) (text "k")) /\
  load_trn ascii_space [text "@ @ (k)"] ∅ !! text "k" = Some (text " ") /\
  transcript_of ascii_space (Some (text "k"))
    (load_trn ascii_space [text "@ @ (k)"] ∅) = Some [].
Proof.
  assert (Forall (fun c => ascii_space c = false) (text "k")) as Hkey
    by (repeat constructor).
  split; [by repeat split|].
  exact (transcript_of_blanks ascii_space 2 (text "k") ∅
           eq_refl eq_refl eq_refl eq_refl Hkey).
Defined.

Example transcript_of_marks :
  (fun line => transcript_of ascii_space (Some (text "k"))
                 (load_trn ascii_space [text line] ∅))
    <$> ["(k)"; "@ (k)"; "@ @ (k)"; "@ @ @   @ (k)"; "a @ (k)"; "@ (j)"]%string
  = [None; None; Some []; Some []; Some (text "a"); None].
Proof. vm_compute. reflexivity. Qed.

(** * Batches of a recipe (the script that generates HMM networks)

    The script splits the lines of a recipe file among batches, so that
    several jobs can work on one recipe.  [load_recipe] reads the whole
    file and runs the body of its loop, which parses a line into a
    record, for the lines of one batch.  The numbers are the integers
    that the options [-B], [-I] and [-S] give.  A function that can
    [die] returns an option: [None] is [die]. *)

From stdpp Require Import pretty.

Local Open Scope Z_scope.

(** The hash that the loop body pushes to [@result]; a key whose value
    is [undef] is [None]. *)
Module rinfo.

Record t := mk {
  audio : string;
  transcript : option string;
  lna : string;
  wg : string;
  num : option string;
  den : option string;
  utterance : option string;
  target : string
}.

End rinfo.

(** What a run of the script is given besides its recipe: for each
    pattern of the loop body what it captures in a line ([None] when the
    pattern does not match), and whether the options [-n], [-d] and [-e]
    are there.  [audio_path] is the first pattern of the alternative for
    a line without [lna=]: it captures what follows the last slash of
    the audio field. *)
Record setting (Line : Type) := Setting {
  audio_field : Line -> option string;
  transcript_field : Line -> option string;
  lna_field : Line -> option string;
  audio_path : Line -> option string;
  hmmnet_field : Line -> option string;
  den_hmmnet_field : Line -> option string;
  utterance_field : Line -> option string;
  opt_n : bool;
  opt_d : bool;
  opt_e : bool
}.
Arguments audio_field {Line} _ _.
Arguments transcript_field {Line} _ _.
Arguments lna_field {Line} _ _.
Arguments audio_path {Line} _ _.
Arguments hmmnet_field {Line} _ _.
Arguments den_hmmnet_field {Line} _ _.
Arguments utterance_field {Line} _ _.
Arguments opt_n {Line} _.
Arguments opt_d {Line} _.
Arguments opt_e {Line} _.

Section load_recipe.
Context {Line : Type}.
Variable E : setting Line.
(** The files that exist ([-e]). *)
Variable files : string -> bool.
Variable temp_dir : string.

(** The body of the second [if] of the loop, for one line: the records
    that it pushes to [@result], none or one. *)
Definition body (cur_line : Z) (line : Line) : option (list rinfo.t) :=
  let audio := default EmptyString (audio_field E line) in
  let tr := transcript_field E line in
  '(lna, name) ←
    match lna_field E line with
    | Some lna => Some (lna, lna)
    | None =>
        match audio_path E line with
        | Some name => Some (EmptyString, name)
        | None =>
            (* die "No valid audio field in the recipe" *)
            name ← audio_field E line; Some (EmptyString, name)
        end
    end;
  let wgfile := (temp_dir +:+ "/" +:+ name +:+ ".wg")%string in
  let temp_target := (name +:+ "_" +:+ pretty cur_line)%string in
  numfile ←
    match hmmnet_field E line with
    | Some numfile => Some (Some numfile)
    | None =>
        (* die "Recipe must have hmmnet-fields with -n" *)
        if opt_n E then None else Some None
    end;
  denfile ←
    match den_hmmnet_field E line with
    | Some denfile => Some (Some denfile)
    | None =>
        (* die "Recipe must have den-hmmnet-fields with -d" *)
        if opt_d E then None else Some None
    end;
  let utterance := utterance_field E line in
  if negb (opt_e E)
     || (opt_n E && negb (from_option files false numfile))
     || (opt_d E && negb (from_option files false denfile))
  then Some [rinfo.mk audio tr lna wgfile numfile denfile utterance
               temp_target]
  else Some [].

Section loop.
Variables batch_index num_batches target_lines batch_remainder : Z.

(** The first [if] of the loop: the step to the next batch when the
    current one is full.  [None] is [last], which leaves the loop. *)
Definition next_batch (cur_index cur_line extra_line : Z)
  : option (Z * Z * Z) :=
  if decide (num_batches > 1 /\ cur_index < num_batches /\
             cur_line >= target_lines + extra_line) then
    let cur_index := cur_index + 1 in
    if decide (cur_index > batch_index) then None
    else
      Some (cur_index,
            cur_line - (target_lines + extra_line),
            if decide (cur_index > batch_remainder) then 0 else extra_line)
  else Some (cur_index, cur_line, extra_line).

(** [foreach my $line (@recipe_lines)], from the values of the
    variables before a line to [@result] after the loop. *)
Fixpoint recipe_loop (cur_index cur_line extra_line : Z) (lines : list Line)
    (result : list rinfo.t) : option (list rinfo.t) :=
  match lines with
  | [] => Some result
  | line :: lines =>
      match next_batch cur_index cur_line extra_line with
      | None => Some result
      | Some (cur_index, cur_line, extra_line) =>
          if decide (num_batches <= 1 \/ cur_index = batch_index) then
            pushed ← body cur_line line;
            recipe_loop cur_index (cur_line + 1) extra_line lines
              (result ++ pushed)
          else recipe_loop cur_index (cur_line + 1) extra_line lines result
      end
  end.

End loop.

(** [load_recipe($recipe_file, $batch_index, $num_batches, $temp_dir)].
    The recipe file is [None] when it does not exist, and otherwise the
    lines that are read from it: none when it cannot be opened, since in
    [open $fh, "< $recipe_file" || die ...] the operator applies to the
    string and the failure is not seen. *)
Definition load_recipe (recipe_file : option (list Line))
    (batch_index num_batches : Z) : option (list rinfo.t) :=
  (* die "Recipe file $recipe_file does not exist!" *)
  recipe_lines ← recipe_file;
  let n := Z.of_nat (length recipe_lines) in
  let target_lines := if decide (num_batches <= 1) then n else n / num_batches in
  let batch_remainder :=
    if decide (num_batches <= 1) then 0 else n mod num_batches in
  let extra_line := 1 in
  let '(target_lines, extra_line) :=
    if decide (target_lines < 1) then (1, 0) else (target_lines, extra_line) in
  let extra_line := if decide (batch_remainder = 0) then 0 else extra_line in
  recipe_loop batch_index num_batches target_lines batch_remainder
    1 0 extra_line recipe_lines [].

(** The loop body on a list of lines, each with its [$cur_line], in
    order; it dies when the body dies on one of them. *)
Fixpoint run_body (calls : list (Z * Line)) : option (list rinfo.t) :=
  match calls with
  | [] => Some []
  | (cur_line, line) :: calls =>
      pushed ← body cur_line line;
      rest ← run_body calls;
      Some (pushed ++ rest)
  end.

End load_recipe.

(** The loop of the script's main part: the job [batch_index] of
    [num_batches] loads its [sub_batches] parts one after the other;
    [$rinfo] of every turn, when the steps between the loads do not die.
    [files i] says which files exist when turn [i] loads. *)
Definition job_lines {Line : Type} (E : setting Line)
    (files : Z -> string -> bool) (recipe : option (list Line))
    (batch_index num_batches sub_batches : Z) (full_temp_path : string)
  : option (list (list rinfo.t)) :=
  let num_virt_batches := num_batches * sub_batches in
  mapM (fun i =>
          let cur_batch := (batch_index - 1) * sub_batches + i in
          load_recipe E (files i) full_temp_path recipe cur_batch
            num_virt_batches)
    (seqZ 1 sub_batches).

(** ** The patterns on lines of ASCII text

    With the blanks of the C locale. *)

(** The capture of [\S*]: the longest run of characters that are not
    blank. *)
Fixpoint nonblank_run (s : string) : string :=
  match s with
  | String c s' =>
      if is_blank c then EmptyString else String c (nonblank_run s')
  | EmptyString => EmptyString
  end.

(** The pattern [key] followed by a captured [\S*]: the capture of the
    leftmost match. *)
Fixpoint match_field (key line : string) : option string :=
  if String.prefix key line
  then Some (nonblank_run (after (String.length key) line))
  else match line with
       | String _ line' => match_field key line'
       | EmptyString => None
       end.

Definition is_slash (c : ascii) : bool := Ascii.eqb c "/".

(** The length of the longest run of characters with [p] at the start. *)
Fixpoint run_length (p : ascii -> bool) (l : list ascii) : nat :=
  match l with
  | c :: l' => if p c then S (run_length p l') else O
  | [] => O
  end.

Definition not_slash (c : ascii) : bool := negb (is_slash c).
Definition not_blank (c : ascii) : bool := negb (is_blank c).

(** Whether the end of the pattern matches at the start of [u]: an
    optional dot with a run of characters that are not slashes, and
    then a blank. *)
Definition match_tail (u : list ascii) : bool :=
  match u with
  | c :: u' =>
      is_blank c
      || (Ascii.eqb c "." && existsb is_blank (take (run_length not_slash u') u'))
  | [] => false
  end.

(** The captured run of one or more characters that are not slashes,
    followed by the end of the pattern, at the start of [tail]: the
    capture, of at most [j] characters, the longest first. *)
Fixpoint match_name (j : nat) (tail : list ascii) : option (list ascii) :=
  match j with
  | O => None
  | S j' =>
      if match_tail (drop j tail) then Some (take j tail)
      else match_name j' tail
  end.

(** The pattern after [audio=] at the start of [rest]: [\S*] of fewer
    than [k] characters, the longest first, then a slash, the captured
    name and the end of the pattern. *)
Fixpoint match_path (k : nat) (rest : list ascii) : option (list ascii) :=
  match k with
  | O => None
  | S k' =>
      let found :=
        if bool_decide (rest !! k' = Some "/"%char)
        then match_name (run_length not_slash (drop k rest)) (drop k rest)
        else None in
      match found with
      | Some name => Some name
      | None => match_path k' rest
      end
  end.

(** The first pattern of the alternative for a line without [lna=]:
    [audio=], [\S*], a slash, a captured run of one or more characters
    that are not slashes, an optional dot with a run of characters that
    are not slashes, and a blank.  The capture of the leftmost match. *)
Fixpoint match_audio_path (line : list ascii) : option (list ascii) :=
  let found :=
    if bool_decide (take 6 line = list_ascii_of_string "audio=")
    then match_path (run_length not_blank (drop 6 line)) (drop 6 line)
    else None in
  match found with
  | Some name => Some name
  | None =>
      match line with
      | _ :: line' => match_audio_path line'
      | [] => None
      end
  end.

Definition match_audio_name (line : string) : option string :=
  string_of_list_ascii <$> match_audio_path (list_ascii_of_string line).

(** The setting of a run on ASCII text with the given options. *)
Definition ascii_setting (n d e : bool) : setting string :=
  Setting string
    (match_field "audio=") (match_field "transcript=") (match_field "lna=")
    match_audio_name
    (match_field "hmmnet=") (match_field "den-hmmnet=")
    (match_field "utterance=")
    n d e.

Definition nl : string := String "010"%char EmptyString.

(** A recipe of four lines; the third has no field. *)
Definition small_recipe : list string :=
  (fun line => line +:+ nl) <$>
  ["audio=/data/a.wav transcript=/data/a.phn hmmnet=/h/a.hmmnet";
   "audio=/data/b.wav lna=b.lna transcript=x.phn den-hmmnet=b.den utterance=u2";
   "";
   "audio=c.wav transcript=c.phn"]%string.

Definition no_file (name : string) : bool := false.

Example load_recipe_small :
  load_recipe (ascii_setting false false false) no_file "/tmp/T"
    (Some (take 2 small_recipe)) 1 1 =
  Some [rinfo.mk "/data/a.wav" (Some "/data/a.phn") "" "/tmp/T/a.wav.wg"
          (Some "/h/a.hmmnet") None None "a.wav_0";
        rinfo.mk "/data/b.wav" (Some "x.phn") "b.lna" "/tmp/T/b.lna.wg"
          (Some "b.den") (Some "b.den") (Some "u2") "b.lna_1"]%string.
Proof. vm_compute. reflexivity. Qed.

(** The loop dies at the third line, in the batch that has it. *)
Example load_recipe_small_dies :
  (fun b => length <$> load_recipe (ascii_setting false false false) no_file
                         "/tmp/T" (Some small_recipe) b 2) <$> [1; 2]
  = [Some 2%nat; None].
Proof. vm_compute. reflexivity. Qed.
(** ** The shares of the batches

    What the loop does, said without the loop: batch [b] of [B] has a
    share of the recipe, [batch_lines], and [load_recipe] runs the body
    on the lines of the share, numbered from zero. *)

(** The number of lines of batch [b] when [n] lines are split among [B]
    batches. *)
Definition batch_size (n B b : Z) : Z :=
  n / B + if decide (b <= n mod B) then 1 else 0.

(** The number of lines of the batches before batch [b]. *)
Definition batch_start (n B b : Z) : Z :=
  (b - 1) * (n / B) + Z.min (b - 1) (n mod B).

(** The lines of batch [b] of [B]: with one batch or fewer the whole
    recipe; else, for a batch from 1 to [B], the lines after those of the
    batches before it. *)
Definition batch_lines {A : Type} (b B : Z) (lines : list A) : list A :=
  let n := Z.of_nat (length lines) in
  if decide (B <= 1) then lines
  else if decide (1 <= b <= B) then
    take (Z.to_nat (batch_size n B b)) (drop (Z.to_nat (batch_start n B b)) lines)
  else [].

(** The lines of a list with their positions, counted from [from]. *)
Definition numbered {A : Type} (from : Z) (lines : list A) : list (Z * A) :=
  zip (seqZ from (Z.of_nat (length lines))) lines.

Section shares.
Context {A : Type}.
Implicit Types (lines : list A).

Lemma numbered_nil (from : Z) : numbered from ([] : list A) = [].
Proof. reflexivity. Qed.

Lemma numbered_cons (from : Z) (line : A) lines :
  numbered from (line :: lines) = (from, line) :: numbered (from + 1) lines.
Proof.
  unfold numbered. simpl length. rewrite Nat2Z.inj_succ, seqZ_cons by lia.
  simpl. do 3 f_equal; lia.
Qed.

Lemma numbered_snd (from : Z) lines : (numbered from lines).*2 = lines.
Proof.
  revert from. induction lines as [|line lines IH]; intros from; [done|].
  rewrite numbered_cons. simpl. by rewrite IH.
Qed.

Lemma length_numbered (from : Z) lines :
  length (numbered from lines) = length lines.
Proof. by rewrite <- (length_fmap snd), numbered_snd. Qed.

Lemma bind_ext_elem_of {B C : Type} (f g : B -> list C) (l : list B) :
  (forall x, x ∈ l -> f x = g x) -> l ≫= f = l ≫= g.
Proof.
  induction l as [|x l IH]; intros Hfg; [done|].
  rewrite !bind_cons, Hfg, IH; [done| |by left].
  intros y Hy. apply Hfg. by right.
Qed.

Lemma batch_start_next (n B b : Z) :
  2 <= B -> 0 <= n -> 1 <= b ->
  batch_start n B (b + 1) = batch_start n B b + batch_size n B b.
Proof.
  intros HB Hn Hb. unfold batch_start, batch_size.
  pose proof (Z.mod_pos_bound n B) as Hmod.
  destruct (decide (b <= n mod B)); nia.
Qed.

Lemma batch_start_bounds (n B b : Z) :
  2 <= B -> 0 <= n -> 1 <= b <= B + 1 ->
  0 <= batch_start n B b <= n /\ 0 <= batch_size n B b /\
  batch_start n B (B + 1) = n.
Proof.
  intros HB Hn Hb. unfold batch_start, batch_size.
  pose proof (Z.mod_pos_bound n B) as Hmod.
  pose proof (Z.div_mod n B) as Hdiv.
  pose proof (Z.div_pos n B) as Hpos.
  assert (0 <= (b - 1) * (n / B) <= B * (n / B)) by nia.
  destruct (decide (b <= n mod B)); repeat split; lia.
Qed.

(** The shares of the batches 1 to [k] are the lines before the share
    of batch [k + 1]. *)
Lemma batch_lines_upto (B : Z) (k : nat) lines :
  2 <= B -> Z.of_nat k <= B ->
  (b ← seqZ 1 (Z.of_nat k); batch_lines b B lines) =
  take (Z.to_nat (batch_start (Z.of_nat (length lines)) B (Z.of_nat k + 1)))
    lines.
Proof.
  intros HB. set (n := Z.of_nat (length lines)).
  induction k as [|k IH]; intros Hk.
  - change (Z.of_nat 0 + 1) with 1.
    assert (batch_start n B 1 = 0) as ->; [|done].
    unfold batch_start. pose proof (Z.mod_pos_bound n B). lia.
  - rewrite seqZ_S, bind_app, IH by lia.
    rewrite bind_singleton. unfold batch_lines. fold n.
    rewrite decide_False, decide_True by lia.
    replace (Z.of_nat (S k) + 1) with ((1 + Z.of_nat k) + 1) by lia.
    rewrite (batch_start_next n B (1 + Z.of_nat k)) by lia.
    destruct (batch_start_bounds n B (1 + Z.of_nat k)) as (? & ? & _);
      [lia..|].
    replace (Z.of_nat k + 1) with (1 + Z.of_nat k) by lia.
    rewrite Z2Nat.inj_add by lia. apply take_take_drop.
Qed.

Lemma batch_lines_shares (B : Z) lines :
  1 <= B -> (b ← seqZ 1 B; batch_lines b B lines) = lines.
Proof.
  intros HB. destruct (decide (B = 1)) as [->|Hne].
  - change (seqZ 1 1) with [1]. rewrite bind_singleton.
    unfold batch_lines. by rewrite decide_True.
  - replace B with (Z.of_nat (Z.to_nat B)) at 1 by lia.
    rewrite batch_lines_upto by lia.
    destruct (batch_start_bounds (Z.of_nat (length lines)) B (B + 1))
      as (_ & _ & Hall); [lia..|].
    rewrite Z2Nat.id, Hall by lia. apply take_ge. lia.
Qed.

Lemma batch_lines_length (b B : Z) lines :
  1 <= b <= B ->
  Z.of_nat (length (batch_lines b B lines)) =
  batch_size (Z.of_nat (length lines)) B b.
Proof.
  intros Hb. unfold batch_lines. set (n := Z.of_nat (length lines)).
  destruct (decide (B <= 1)).
  - assert (B = 1) as -> by lia. assert (b = 1) as -> by lia.
    unfold batch_size. rewrite Z.div_1_r, Z.mod_1_r, decide_False by lia.
    lia.
  - rewrite decide_True by done. rewrite length_take, length_drop.
    destruct (batch_start_bounds n B b) as (? & ? & _); [lia..|].
    destruct (batch_start_bounds n B (b + 1)) as (? & _); [lia..|].
    rewrite batch_start_next in * by lia. lia.
Qed.

(** *** The lines of one batch

    [batch_slice] says which lines the loop gives to batch [b], batch by
    batch: a batch before the last takes what is left of its
    [target_lines + extra_line] lines, the last batch takes the rest. *)

Section slices.
Variables b B t r : Z.

Fixpoint batch_slice (k : nat) (ci cl ex : Z) (lines : list A)
  : list (Z * A) :=
  match k with
  | O => if decide (ci = b) then numbered cl lines else []
  | S k =>
      let room := Z.to_nat (t + ex - cl) in
      if decide (ci = b) then numbered cl (take room lines)
      else batch_slice k (ci + 1) 0 (if decide (ci + 1 > r) then 0 else ex)
             (drop room lines)
  end.

Lemma batch_slice_nil (k : nat) (ci cl ex : Z) :
  batch_slice k ci cl ex [] = [].
Proof.
  revert ci cl ex. induction k as [|k IH]; intros ci cl ex; simpl.
  - by destruct (decide (ci = b)).
  - rewrite take_nil, drop_nil, IH. by destruct (decide (ci = b)).
Qed.

Lemma batch_slice_passed (k : nat) (ci cl ex : Z) lines :
  b < ci -> batch_slice k ci cl ex lines = [].
Proof.
  revert ci cl ex lines. induction k as [|k IH]; intros ci cl ex lines Hb;
    simpl; rewrite decide_False by lia; [done|]. apply IH. lia.
Qed.

Lemma batch_slice_cons (k : nat) (ci cl ex : Z) (line : A) lines :
  k = 0%nat \/ cl < t + ex ->
  batch_slice k ci cl ex (line :: lines) =
  (if decide (ci = b) then [(cl, line)] else [])
  ++ batch_slice k ci (cl + 1) ex lines.
Proof.
  intros Hroom. destruct k as [|k]; simpl.
  - destruct (decide (ci = b)); [|done]. by rewrite numbered_cons.
  - destruct Hroom as [|Hroom]; [done|].
    replace (Z.to_nat (t + ex - cl)) with (S (Z.to_nat (t + ex - (cl + 1))))
      by lia.
    simpl. destruct (decide (ci = b)); [|done]. by rewrite numbered_cons.
Qed.

Lemma batch_slice_full (k : nat) (ci cl ex : Z) lines :
  t + ex <= cl ->
  batch_slice (S k) ci cl ex lines =
  if decide (ci = b) then []
  else batch_slice k (ci + 1) 0 (if decide (ci + 1 > r) then 0 else ex) lines.
Proof.
  intros Hfull. simpl. replace (Z.to_nat (t + ex - cl)) with 0%nat by lia.
  by rewrite take_0, drop_0.
Qed.

(** The lines that the batches from [ci] to [ci + k] take together when
    none runs short: [t] each, and one more for the batches up to [r]. *)
Fixpoint sizes_from (k : nat) (ci : Z) : Z :=
  (t + if decide (ci <= r) then 1 else 0)
  + match k with
    | O => 0
    | S k => sizes_from k (ci + 1)
    end.

Lemma sizes_from_closed (k : nat) (ci : Z) :
  sizes_from k ci =
  Z.of_nat (S k) * t + Z.max 0 (Z.min r (ci + Z.of_nat k) - ci + 1).
Proof.
  revert ci. induction k as [|k IH]; intros ci.
  - simpl. destruct (decide (ci <= r)); lia.
  - cbn [sizes_from]. rewrite IH.
    rewrite (Nat2Z.inj_succ (S k)), Z.mul_succ_l.
    destruct (decide (ci <= r)); lia.
Qed.



(** The lines of batch [b], by their place among the lines that are
    left for the batches from [ci] on. *)
Lemma batch_slice_lines (k : nat) (ci ex : Z) lines :
  1 <= t ->
  ex = (if decide (ci <= r) then 1 else 0) ->
  ci <= b <= B -> ci + Z.of_nat k = B ->
  Z.of_nat (length lines) = sizes_from k ci ->
  batch_slice k ci 0 ex lines =
  numbered 0
    (take (Z.to_nat (t + if decide (b <= r) then 1 else 0))
       (drop (Z.to_nat ((b - ci) * t + Z.max 0 (Z.min r (b - 1) - ci + 1)))
          lines)).
Proof.
  intros Ht. revert ci ex lines.
  induction k as [|k IH]; intros ci ex lines -> Hb Hk Hlen; simpl in *.
  - rewrite decide_True by lia. assert (ci = b) as -> by lia.
    replace (Z.to_nat ((b - b) * t + Z.max 0 (Z.min r (b - 1) - b + 1)))
      with 0%nat by lia.
    rewrite drop_0, take_ge; [done|]. destruct (decide (b <= r)); lia.
  - destruct (decide (ci = b)) as [->|Hne].
    + replace (Z.to_nat ((b - b) * t + Z.max 0 (Z.min r (b - 1) - b + 1)))
        with 0%nat by lia.
      rewrite drop_0. do 2 f_equal. lia.
    + pose proof (sizes_from_closed k (ci + 1)) as Hrest.
      rewrite (IH (ci + 1));
        [|repeat destruct (decide _); lia|lia|lia|].
      * rewrite drop_drop. do 3 f_equal.
        assert (0 <= (b - (ci + 1)) * t) by nia.
        destruct (decide (ci <= r)); lia.
      * rewrite length_drop. destruct (decide (ci <= r)); lia.
Qed.

(** Fewer lines than batches: batch [b] has the line at its place, if
    there is one. *)
Lemma batch_slice_lines_short (k : nat) (ci : Z) lines :
  t = 1 ->
  ci <= b <= B -> ci + Z.of_nat k = B ->
  (length lines <= S k)%nat ->
  batch_slice k ci 0 0 lines =
  numbered 0 (take 1 (drop (Z.to_nat (b - ci)) lines)).
Proof.
  intros ->. revert ci lines.
  induction k as [|k IH]; intros ci lines Hb Hk Hlen; simpl.
  - rewrite decide_True by lia. assert (ci = b) as -> by lia.
    replace (Z.to_nat (b - b)) with 0%nat by lia.
    rewrite drop_0, take_ge; [done|lia].
  - destruct (decide (ci = b)) as [->|Hne].
    + replace (Z.to_nat (b - b)) with 0%nat by lia. rewrite drop_0.
      do 2 f_equal. lia.
    + replace (if decide (ci + 1 > r) then 0 else 0) with 0
        by (by destruct (decide (ci + 1 > r))).
      rewrite IH by (rewrite ?length_drop; lia).
      rewrite drop_drop. do 3 f_equal. lia.
Qed.

End slices.

(** The batches of all jobs, job by job and part by part, are the
    batches 1, 2, ... of the split into [num_batches * sub_batches]. *)
Lemma seqZ_blocks {C : Type} (f : Z -> list C) (num_batches sub_batches : Z) :
  0 <= num_batches -> 0 <= sub_batches ->
  (c ← seqZ 1 (num_batches * sub_batches); f c) =
  (job ← seqZ 1 num_batches; i ← seqZ 1 sub_batches;
   f ((job - 1) * sub_batches + i)).
Proof.
  intros HB HS. destruct (Z_of_nat_complete num_batches HB) as [k ->].
  clear HB. induction k as [|k IH]; [done|].
  rewrite seqZ_S, bind_app, bind_singleton, <- IH.
  rewrite Nat2Z.inj_succ, Z.mul_succ_l, seqZ_app, bind_app by nia.
  f_equal. rewrite (Z.add_comm 1), <- fmap_add_seqZ, list_fmap_bind.
  apply bind_ext_elem_of. intros i _. simpl. f_equal. lia.
Qed.

End shares.

(** *** The loop and the shares *)

Section runs.
Context {Line : Type}.
Variable E : setting Line.
Variable files : string -> bool.
Variable temp_dir : string.

(** The body pushes one record, or none when [-e] is given. *)
Lemma body_pushed (cl : Z) (line : Line) (pushed : list rinfo.t) :
  body E files temp_dir cl line = Some pushed ->
  (length pushed <= 1)%nat /\ (opt_e E = false -> length pushed = 1%nat).
Proof.
  unfold body. intros Hbody.
  repeat match type of Hbody with
         | context [mbind _ ?m] => destruct m as [?|]; simpl in Hbody
         | match ?p with (_, _) => _ end = _ => destruct p
         | (if ?c then _ else _) = _ => destruct c eqn:?
         | _ => discriminate
         end.
  all: injection Hbody as <-; simpl; split; try lia.
  all: intros He; rewrite He in *; done.
Qed.

Lemma run_body_pushed (calls : list (Z * Line)) (result : list rinfo.t) :
  run_body E files temp_dir calls = Some result ->
  (length result <= length calls)%nat /\
  (opt_e E = false -> length result = length calls).
Proof.
  revert result. induction calls as [|[cl line] calls IH]; intros result.
  { by intros [= <-]. }
  simpl. destruct (body E files temp_dir cl line) as [pushed|] eqn:Hbody;
    [|done]. simpl.
  destruct (run_body E files temp_dir calls) as [rest|]; [|done]. simpl.
  intros [= <-]. rewrite length_app.
  destruct (body_pushed _ _ _ Hbody) as [Hle Heq].
  destruct (IH rest eq_refl) as [Hle' Heq']. split; [lia|].
  intros He. rewrite Heq, Heq' by done. done.
Qed.

(** One more turn that reaches the body, before the turns for [calls]. *)
Lemma run_body_turn (cl : Z) (line : Line) (calls : list (Z * Line))
    (result : list rinfo.t)
    (rest_of : list rinfo.t -> option (list rinfo.t)) :
  (forall pushed,
     rest_of pushed =
     (fun rest => (result ++ pushed) ++ rest) <$>
       run_body E files temp_dir calls) ->
  (pushed ← body E files temp_dir cl line; rest_of pushed)
  = (fun rest => result ++ rest) <$>
      run_body E files temp_dir ((cl, line) :: calls).
Proof.
  intros Hrest. simpl.
  destruct (body E files temp_dir cl line) as [pushed|]; [|done].
  simpl. rewrite Hrest.
  destruct (run_body E files temp_dir calls) as [rest|]; [|done].
  simpl. by rewrite app_assoc.
Qed.

Lemma run_body_nil (result : list rinfo.t) :
  Some result =
  (fun rest => result ++ rest) <$> run_body E files temp_dir [].
Proof. simpl. by rewrite app_nil_r. Qed.

Section turns.
Variables b B t r : Z.

#[local] Abbreviation loop := (recipe_loop E files temp_dir b B t r).

(** One turn of the loop when the current batch has room left. *)
Lemma recipe_loop_stay (ci cl ex : Z) (line : Line) lines result :
  ~ (B > 1 /\ ci < B /\ cl >= t + ex) ->
  loop ci cl ex (line :: lines) result =
  if decide (B <= 1 \/ ci = b) then
    pushed ← body E files temp_dir cl line;
    loop ci (cl + 1) ex lines (result ++ pushed)
  else loop ci (cl + 1) ex lines result.
Proof. intros Hstay. simpl. unfold next_batch. by rewrite decide_False. Qed.

(** One turn of the loop when the current batch is full. *)
Lemma recipe_loop_advance (ci cl ex : Z) (line : Line) lines result :
  B > 1 /\ ci < B /\ cl >= t + ex ->
  loop ci cl ex (line :: lines) result =
  if decide (ci + 1 > b) then Some result
  else if decide (B <= 1 \/ ci + 1 = b) then
    pushed ← body E files temp_dir (cl - (t + ex)) line;
    loop (ci + 1) (cl - (t + ex) + 1)
      (if decide (ci + 1 > r) then 0 else ex) lines (result ++ pushed)
  else loop (ci + 1) (cl - (t + ex) + 1)
         (if decide (ci + 1 > r) then 0 else ex) lines result.
Proof.
  intros Hadv. simpl. unfold next_batch. rewrite decide_True by done.
  by destruct (decide (ci + 1 > b)).
Qed.

#[local] Arguments recipe_loop : simpl never.
#[local] Arguments run_body : simpl never.

(** With one batch, or fewer, the loop never leaves batch 1 and the body
    runs for every line. *)
Lemma recipe_loop_single (ci cl ex : Z) lines result :
  B <= 1 ->
  loop ci cl ex lines result =
  (fun rest => result ++ rest) <$>
    run_body E files temp_dir (numbered cl lines).
Proof.
  intros HB. revert cl result.
  induction lines as [|line lines IH]; intros cl result.
  { apply run_body_nil. }
  rewrite recipe_loop_stay, decide_True, numbered_cons by lia.
  apply run_body_turn. intros pushed. apply IH.
Qed.

(** A batch that the loop has passed, or that does not exist, gets no
    line. *)
Lemma recipe_loop_outside (ci cl ex : Z) lines result :
  2 <= B -> ci <= B -> b < ci \/ B < b ->
  loop ci cl ex lines result = Some result.
Proof.
  intros HB. revert ci cl ex.
  induction lines as [|line lines IH]; intros ci cl ex Hci Hb; [done|].
  destruct (decide (B > 1 /\ ci < B /\ cl >= t + ex)) as [Hadv|Hstay].
  - rewrite recipe_loop_advance by done.
    destruct (decide (ci + 1 > b)); [done|].
    rewrite decide_False by lia. apply IH; lia.
  - rewrite recipe_loop_stay, decide_False by (done || lia). apply IH; lia.
Qed.

(** The loop runs the body on the lines of its batch. *)
Lemma recipe_loop_slice (k : nat) (ci cl ex : Z) lines result :
  2 <= B -> 1 <= t -> 0 <= ex ->
  ci + Z.of_nat k = B ->
  (k <> 0%nat -> cl <= t + ex) ->
  loop ci cl ex lines result =
  (fun rest => result ++ rest) <$>
    run_body E files temp_dir (batch_slice b t r k ci cl ex lines).
Proof.
  intros HB Ht. revert k ci cl ex result.
  induction lines as [|line lines IH]; intros k ci cl ex result Hex Hk Hcl.
  { rewrite batch_slice_nil. apply run_body_nil. }
  destruct (decide (B > 1 /\ ci < B /\ cl >= t + ex)) as [Hadv|Hstay].
  - destruct k as [|k]; [lia|].
    rewrite recipe_loop_advance, batch_slice_full by (done || lia).
    destruct (decide (ci + 1 > b)) as [Hpast|Hnext].
    + destruct (decide (ci = b)); [apply run_body_nil|].
      rewrite batch_slice_passed by lia. apply run_body_nil.
    + rewrite (decide_False (P := ci = b)) by lia.
      rewrite batch_slice_cons by (destruct (decide (ci + 1 > r)); lia).
      replace (cl - (t + ex)) with 0 by lia.
      destruct (decide (ci + 1 = b)) as [Hb|Hb].
      * rewrite decide_True by lia. cbn [app]. apply run_body_turn.
        intros pushed.
        apply (IH k); try destruct (decide (ci + 1 > r)); lia.
      * rewrite decide_False by lia. cbn [app].
        apply (IH k); try destruct (decide (ci + 1 > r)); lia.
  - rewrite recipe_loop_stay, batch_slice_cons by (done || lia).
    destruct (decide (ci = b)) as [Hb|Hb].
    + rewrite decide_True by lia. cbn [app]. apply run_body_turn.
      intros pushed. apply (IH k); lia.
    + rewrite decide_False by lia. cbn [app]. apply (IH k); lia.
Qed.

End turns.

(** The load of a batch is the body run on the lines of its share,
    numbered from zero. *)
Lemma load_recipe_runs (b B : Z) (lines : list Line) :
  load_recipe E files temp_dir (Some lines) b B =
  run_body E files temp_dir (numbered 0 (batch_lines b B lines)).
Proof.
  assert (forall calls,
            (fun rest => [] ++ rest) <$> run_body E files temp_dir calls
            = run_body E files temp_dir calls) as Hnil.
  { intros calls. by destruct (run_body E files temp_dir calls). }
  unfold load_recipe, batch_lines. cbn [mbind option_bind].
  set (n := Z.of_nat (length lines)).
  destruct (decide (B <= 1)).
  { destruct (decide (_ < 1)); by rewrite recipe_loop_single, Hnil. }
  destruct (decide (1 <= b <= B)) as [Hb|Hb];
    [|destruct (decide (_ < 1)); by rewrite recipe_loop_outside by lia].
  unfold batch_size, batch_start.
  pose proof (Z.mod_pos_bound n B) as Hmod.
  pose proof (Z.div_mod n B) as Hdiv.
  pose proof (Z.div_pos n B) as Hpos.
  destruct (decide (n / B < 1)).
  - assert (n / B = 0) as Hq by lia.
    replace (if decide (n mod B = 0) then 0 else 0) with 0
      by (by destruct (decide (n mod B = 0))).
    rewrite (recipe_loop_slice b B 1 (n mod B) (Z.to_nat (B - 1))), Hnil
      by lia.
    rewrite batch_slice_lines_short with (B := B) by lia.
    rewrite Hq. replace (n mod B) with n by lia. do 2 f_equal.
    destruct (decide (b <= n)).
    + do 2 f_equal. lia.
    + rewrite drop_ge by lia. by rewrite take_nil.
  - rewrite (recipe_loop_slice b B (n / B) (n mod B) (Z.to_nat (B - 1))), Hnil
      by (try destruct (decide (n mod B = 0)); lia).
    rewrite batch_slice_lines with (B := B); try lia.
    + do 4 f_equal. lia.
    + repeat destruct (decide _); lia.
    + rewrite sizes_from_closed. fold n. nia.
Qed.

End runs.

(** ** What a batch gets *)

Section batches.
Context {Line : Type}.
Variable E : setting Line.
Variable files : string -> bool.
Variable temp_dir : string.

(** The batches 1 to [num_batches] share out the recipe: their shares,
    one after the other, are the lines of the recipe in order, none left
    out and none twice.  The load of a batch runs the loop body on the
    lines of its share, in order, and dies when the body dies on one of
    them. *)
Theorem load_recipe_partition (num_batches : Z) (recipe_lines : list Line) :
  1 <= num_batches ->
  (b ← seqZ 1 num_batches; batch_lines b num_batches recipe_lines)
  = recipe_lines /\
  forall batch_index,
    load_recipe E files temp_dir (Some recipe_lines) batch_index num_batches =
    run_body E files temp_dir
      (numbered 0 (batch_lines batch_index num_batches recipe_lines)).
Proof.
  intros HB. split; [by apply batch_lines_shares|].
  intros b. apply load_recipe_runs.
Qed.

(** The batches are even.  A load of batch [b] of [B] that returns has
    run the body for the quotient of the number of lines by [B], and for
    one line more when [b] is at most the remainder: it returns as many
    records without [-e], and no more with [-e]. *)
Theorem load_recipe_balanced (batch_index num_batches : Z)
    (recipe_lines : list Line) (result : list rinfo.t) :
  1 <= batch_index <= num_batches ->
  load_recipe E files temp_dir (Some recipe_lines) batch_index num_batches =
    Some result ->
  Z.of_nat (length (batch_lines batch_index num_batches recipe_lines)) =
    batch_size (Z.of_nat (length recipe_lines)) num_batches batch_index /\
  Z.of_nat (length result) <=
    batch_size (Z.of_nat (length recipe_lines)) num_batches batch_index /\
  (opt_e E = false ->
   Z.of_nat (length result) =
   batch_size (Z.of_nat (length recipe_lines)) num_batches batch_index).
Proof.
  intros Hb Hload. rewrite load_recipe_runs in Hload.
  apply run_body_pushed in Hload as [Hle Heq].
  rewrite length_numbered in Hle, Heq.
  pose proof (batch_lines_length batch_index num_batches recipe_lines Hb).
  split; [done|]. split; [lia|]. intros He. rewrite Heq by done. done.
Qed.

(** The body of the loop sees the lines of its batch numbered from
    zero, whatever the batch: the load is the body run on the lines of
    the share of the batch, each with its number. *)
Theorem load_recipe_numbered (batch_index num_batches : Z)
    (recipe_lines : list Line) :
  load_recipe E files temp_dir (Some recipe_lines) batch_index num_batches =
  run_body E files temp_dir
    (numbered 0 (batch_lines batch_index num_batches recipe_lines)).
Proof. apply load_recipe_runs. Qed.

(** With one batch (the default) or fewer, the batch index is not looked
    at: every load runs the body on the whole recipe, each line with its
    position, and dies when the body dies on a line. *)
Theorem load_recipe_one_batch (batch_index num_batches : Z)
    (recipe_lines : list Line) :
  num_batches <= 1 ->
  load_recipe E files temp_dir (Some recipe_lines) batch_index num_batches =
  run_body E files temp_dir (numbered 0 recipe_lines).
Proof.
  intros HB. rewrite load_recipe_runs. unfold batch_lines.
  by rewrite decide_True.
Qed.

(** With two batches or more, an index that names none of them loads
    nothing: the body is not reached, the load returns no record and
    does not die. *)
Theorem load_recipe_no_such_batch (batch_index num_batches : Z)
    (recipe_lines : list Line) :
  2 <= num_batches ->
  batch_index < 1 \/ num_batches < batch_index ->
  load_recipe E files temp_dir (Some recipe_lines) batch_index num_batches =
  Some [].
Proof.
  intros HB Hb. rewrite load_recipe_runs. unfold batch_lines.
  by rewrite !decide_False by lia.
Qed.

End batches.

Lemma mapM_ext_elem_of {B C : Type} (f g : B -> option C) (l : list B) :
  (forall x, x ∈ l -> f x = g x) -> mapM f l = mapM g l.
Proof.
  induction l as [|x l IH]; intros Hfg; [done|]. simpl.
  rewrite Hfg, IH; [done| |by left]. intros y Hy. apply Hfg. by right.
Qed.

(** The jobs 1 to [num_batches], each with its [sub_batches] parts, share
    out the recipe: the shares of their parts, job by job and part by
    part, are the lines of the recipe in order, each line once.  A job
    loads its parts one after the other, each load running the loop body
    on the lines of its share. *)
Theorem job_lines_partition {Line : Type} (E : setting Line)
    (temp_dir : string) (num_batches sub_batches : Z)
    (recipe_lines : list Line) :
  1 <= num_batches -> 1 <= sub_batches ->
  (job ← seqZ 1 num_batches; i ← seqZ 1 sub_batches;
   batch_lines ((job - 1) * sub_batches + i) (num_batches * sub_batches)
     recipe_lines)
  = recipe_lines /\
  forall files job,
    job_lines E files (Some recipe_lines) job num_batches sub_batches temp_dir
    = mapM (fun i =>
              run_body E (files i) temp_dir
                (numbered 0
                   (batch_lines ((job - 1) * sub_batches + i)
                      (num_batches * sub_batches) recipe_lines)))
        (seqZ 1 sub_batches).
Proof.
  intros HB HS. split.
  - rewrite <- (seqZ_blocks
                  (fun c => batch_lines c (num_batches * sub_batches)
                              recipe_lines)) by lia.
    apply batch_lines_shares. nia.
  - intros files job. unfold job_lines. apply mapM_ext_elem_of.
    intros i _. apply load_recipe_runs.
Qed.

Lemma load_recipe_partition_small :
  1 <= 2 /\
  (b ← seqZ 1 2; batch_lines b 2 small_recipe) = small_recipe /\
  forall batch_index,
    load_recipe (ascii_setting false false false) no_file "/tmp/T"
      (Some small_recipe) batch_index 2 =
    run_body (ascii_setting false false false) no_file "/tmp/T"
      (numbered 0 (batch_lines batch_index 2 small_recipe)).
Proof. split; [lia|]. apply load_recipe_partition. lia. Defined.

Definition first_half : list rinfo.t :=
  [rinfo.mk "/data/a.wav" (Some "/data/a.phn") "" "/tmp/T/a.wav.wg"
     (Some "/h/a.hmmnet") None None "a.wav_0";
   rinfo.mk "/data/b.wav" (Some "x.phn") "b.lna" "/tmp/T/b.lna.wg"
     (Some "b.den") (Some "b.den") (Some "u2") "b.lna_1"]%string.

Lemma load_recipe_balanced_small :
  (1 <= 1 <= 2 /\
   load_recipe (ascii_setting false false false) no_file "/tmp/T"
     (Some small_recipe) 1 2 = Some first_half) /\
  Z.of_nat (length (batch_lines 1 2 small_recipe)) =
    batch_size (Z.of_nat (length small_recipe)) 2 1 /\
  Z.of_nat (length first_half) <=
    batch_size (Z.of_nat (length small_recipe)) 2 1 /\
  (opt_e (ascii_setting false false false) = false ->
   Z.of_nat (length first_half) =
   batch_size (Z.of_nat (length small_recipe)) 2 1).
Proof.
  assert (load_recipe (ascii_setting false false false) no_file "/tmp/T"
            (Some small_recipe) 1 2 = Some first_half) as Hload
    by (vm_compute; reflexivity).
  split; [split; [lia|done]|].
  apply (load_recipe_balanced _ no_file "/tmp/T" 1 2 small_recipe first_half);
    [lia|done].
Defined.

Lemma load_recipe_one_batch_any_index :
  0 <= 1 /\
  load_recipe (ascii_setting false false false) no_file "/tmp/T"
    (Some small_recipe) 5 0 =
  run_body (ascii_setting false false false) no_file "/tmp/T"
    (numbered 0 small_recipe).
Proof. split; [lia|]. apply load_recipe_one_batch. lia. Defined.

Lemma load_recipe_no_such_batch_four :
  (2 <= 3 /\ (4 < 1 \/ 3 < 4)) /\
  load_recipe (ascii_setting false false false) no_file "/tmp/T"
    (Some small_recipe) 4 3 = Some [].
Proof.
  split; [lia|]. apply load_recipe_no_such_batch; lia.
Defined.

Lemma job_lines_partition_two_by_two :
  (1 <= 2 /\ 1 <= 2) /\
  (job ← seqZ 1 2; i ← seqZ 1 2;
   batch_lines ((job - 1) * 2 + i) (2 * 2) small_recipe) = small_recipe /\
  forall files job,
    job_lines (ascii_setting false false false) files (Some small_recipe)
      job 2 2 "/tmp/T"
    = mapM (fun i =>
              run_body (ascii_setting false false false) (files i) "/tmp/T"
                (numbered 0
                   (batch_lines ((job - 1) * 2 + i) (2 * 2) small_recipe)))
        (seqZ 1 2).
Proof. split; [lia|]. apply job_lines_partition; lia. Defined.

(** The shares of a recipe of ten lines, here the numbers 10 to 19,
    among three batches, and of two lines among four. *)
Example batch_lines_three_batches :
  (fun b => batch_lines b 3 [10; 11; 12; 13; 14; 15; 16; 17; 18; 19])
    <$> [1; 2; 3] =
  [ [10; 11; 12; 13]; [14; 15; 16]; [17; 18; 19] ].
Proof. reflexivity. Qed.

Example batch_lines_more_batches_than_lines :
  (fun b => batch_lines b 4 [10; 11]) <$> [1; 2; 3; 4] =
  [ [10]; [11]; []; [] ].
Proof. reflexivity. Qed.
